(** * Flashcards: the Modified-Leitner bucket scheduler of [src/algorithm.ts]

    The TypeScript functions work on JavaScript [Map] and [Set] objects,
    which are mutable and shared by reference.  The embedding therefore
    keeps an explicit object store: every [Map] and every [Set] lives at a
    location, and the functions are written in a small state monad over
    that store.  Flashcards are compared by reference only, so a card is
    represented by the identity of its object. *)

From stdpp Require Import numbers list gmap.
From stdpp Require Import strings.

Local Open Scope Z_scope.

#[local] Set Warnings "-clear-no-such-hyp".

(** ** Values *)

(** Object identities. *)
Abbreviation loc := positive (only parsing).

(** A [Flashcard] object; [Set<Flashcard>] compares by reference. *)
Abbreviation Flashcard := positive (only parsing).

(** [AnswerDifficulty] of [flashcards.ts]: the three symbolic values used by
    [update]. *)
Inductive AnswerDifficulty : Set := Wrong | Hard | Easy.

(** The entries of a [Map<number, Set<Flashcard>>], in insertion order. *)
Abbreviation entries := (list (Z * loc)) (only parsing).

(** ** The object store *)

Record heap : Type := Heap {
  hmaps : gmap loc entries;            (* Map objects *)
  hsets : gmap loc (gset Flashcard)    (* Set objects *)
}.

Definition St (A : Type) : Type := heap → A * heap.

#[global] Instance St_ret : MRet St := λ _ a h, (a, h).
#[global] Instance St_bind : MBind St :=
  λ _ _ k c h, let '(a, h') := c h in k a h'.

(** Contents of the objects at a location. *)
Definition entries_at (h : heap) (m : loc) : entries := default [] (hmaps h !! m).
Definition set_at (h : heap) (s : loc) : gset Flashcard := default ∅ (hsets h !! s).

(** *** Association lists with [Map] semantics *)

Fixpoint entries_get (k : Z) (es : entries) : option loc :=
  match es with
  | [] => None
  | (k', v) :: es' => if decide (k' = k) then Some v else entries_get k es'
  end.

(** [Map.prototype.set]: an existing key keeps its position, a new key goes
    last. *)
Fixpoint entries_set (k : Z) (v : loc) (es : entries) : entries :=
  match es with
  | [] => [(k, v)]
  | (k', v') :: es' =>
      if decide (k' = k) then (k, v) :: es' else (k', v') :: entries_set k v es'
  end.

(** *** Operations of [Map] *)

(** [new Map(buckets)]: a fresh object holding a copy of the entries; the
    values are copied as references. *)
Definition Map_new (es : entries) : St loc := λ h,
  let m := fresh (dom (hmaps h)) in
  (m, Heap (<[m := es]> (hmaps h)) (hsets h)).

Definition Map_entries (m : loc) : St entries := λ h, (entries_at h m, h).

Definition Map_keys (m : loc) : St (list Z) := λ h, ((entries_at h m).*1, h).

Definition Map_get (m : loc) (k : Z) : St (option loc) := λ h,
  (entries_get k (entries_at h m), h).

Definition Map_set (m : loc) (k : Z) (v : loc) : St unit := λ h,
  (tt, Heap (<[m := entries_set k v (entries_at h m)]> (hmaps h)) (hsets h)).

(** *** Operations of [Set] *)

Definition Set_new : St loc := λ h,
  let s := fresh (dom (hsets h)) in
  (s, Heap (hmaps h) (<[s := ∅]> (hsets h))).

Definition Set_has (s : loc) (card : Flashcard) : St bool := λ h,
  (bool_decide (card ∈ set_at h s), h).

Definition Set_add (s : loc) (card : Flashcard) : St unit := λ h,
  (tt, Heap (hmaps h) (<[s := {[card]} ∪ set_at h s]> (hsets h))).

Definition Set_delete (s : loc) (card : Flashcard) : St unit := λ h,
  (tt, Heap (hmaps h) (<[s := set_at h s ∖ {[card]}]> (hsets h))).

Definition Set_size (s : loc) : St Z := λ h, (Z.of_nat (size (set_at h s)), h).

(** ** [update] *)

(** The scan [for (let [bucket, set] of buckets.entries())] with its
    [break]: the first bucket, in insertion order, whose set has the card. *)
Fixpoint update_find (es : entries) (card : Flashcard) : St (option Z) :=
  match es with
  | [] => mret None
  | (bucket, set) :: es' =>
      found ← Set_has set card;
      if found : bool then mret (Some bucket) else update_find es' card
  end.

(** Bucket indices are integers.  [currentBucket + 1] is written as the
    integer sum: that is the sum of the source as long as the index is a
    safe integer ([safe_integer], [number_succ_safe] below); from [2^53] on
    the sum of two doubles is rounded, and the properties that depend on the
    value of the new index assume a safe index. *)
Definition update (buckets : loc) (card : Flashcard)
    (difficulty : AnswerDifficulty) : St loc :=
  es ← Map_entries buckets;
  found ← update_find es card;
  let currentBucket := default 0 found in
  newBuckets ← Map_new es;
  old ← Map_get newBuckets currentBucket;
  _ ← match old with
      | Some set => Set_delete set card
      | None => mret tt
      end;
  let newBucket :=
    match difficulty with
    | Easy => currentBucket + 1
    | Hard => currentBucket
    | Wrong => 0
    end in
  existing ← Map_get newBuckets newBucket;
  bucketSet ← match existing with
              | Some set => mret set
              | None => set ← Set_new; _ ← Map_set newBuckets newBucket set; mret set
              end;
  _ ← Set_add bucketSet card;
  mret newBuckets.

(** ** [toBucketSets] *)

(** [a[i] = v] on an array: an index below the length overwrites, the index
    equal to the length extends the array by one slot.  (A larger index would
    leave holes; the loops below write the indices 0, 1, 2, ... in order.) *)
Definition array_set {A : Type} (a : list A) (i : nat) (v : A) : list A :=
  if decide (i < length a)%nat then <[i := v]> a else a ++ [v].

(** The first loop: the largest key, starting from 0. *)
Definition toBucketSets_max (keys : list Z) : Z :=
  foldl (λ maxBucket key, if decide (key > maxBucket) then key else maxBucket)
        0 keys.

(** The second loop, [for (let i = 0; i <= maxBucket; i++)], with [n] the
    number of iterations still to run. *)
Fixpoint toBucketSets_loop (buckets : loc) (n i : nat) (result : list loc)
    : St (list loc) :=
  match n with
  | O => mret result
  | S n' =>
      existing ← Map_get buckets (Z.of_nat i);
      set ← match existing with
            | Some set => mret set
            | None => Set_new
            end;
      toBucketSets_loop buckets n' (S i) (array_set result i set)
  end.

Definition toBucketSets (buckets : loc) : St (list loc) :=
  keys ← Map_keys buckets;
  let maxBucket := toBucketSets_max keys in
  toBucketSets_loop buckets (Z.to_nat (maxBucket + 1)) 0 [].

(** ** [getBucketRange] *)

(** The numbers [getBucketRange] computes with: array indices and the two
    infinities its accumulators start from. *)
Inductive number : Set := NegInfinity | Num (z : Z) | Infinity.

Definition number_lt (a b : number) : bool :=
  match a, b with
  | NegInfinity, NegInfinity => false
  | NegInfinity, _ => true
  | Num x, Num y => bool_decide (x < y)
  | Num _, Infinity => true
  | _, _ => false
  end.

Record BucketRange : Set := { minBucket : number; maxBucket : number }.

Fixpoint getBucketRange_loop (buckets : list loc) (i : nat) (min max : number)
    : St (number * number) :=
  match buckets with
  | [] => mret (min, max)
  | set :: rest =>
      size ← Set_size set;
      if decide (size > 0) then
        let min := if number_lt (Num (Z.of_nat i)) min then Num (Z.of_nat i) else min in
        let max := if number_lt max (Num (Z.of_nat i)) then Num (Z.of_nat i) else max in
        getBucketRange_loop rest (S i) min max
      else getBucketRange_loop rest (S i) min max
  end.

Definition getBucketRange (buckets : list loc) : St (option BucketRange) :=
  '(min, max) ← getBucketRange_loop buckets 0 Infinity NegInfinity;
  match min with
  | Infinity => mret None
  | _ => mret (Some {| minBucket := min; maxBucket := max |})
  end.

(** ** [practice] *)

Definition Set_values (s : loc) : St (list Flashcard) := λ h,
  (elements (set_at h s), h).

(** [for (let card of ...) result.add(card)] *)
Fixpoint practice_add (cards : list Flashcard) (result : loc) : St unit :=
  match cards with
  | [] => mret tt
  | card :: cards' => _ ← Set_add result card; practice_add cards' result
  end.

Fixpoint practice_loop (buckets : list loc) (i : nat) (day : Z) (result : loc)
    : St unit :=
  match buckets with
  | [] => mret tt
  | set :: rest =>
      _ ← (if decide (i = 0%nat) then
             cards ← Set_values set; practice_add cards result
           else if decide (Z.rem day (2 ^ Z.of_nat i) = 0) then
             cards ← Set_values set; practice_add cards result
           else mret tt);
      practice_loop rest (S i) day result
  end.

Definition practice (buckets : list loc) (day : Z) : St loc :=
  result ← Set_new;
  _ ← practice_loop buckets 0 day result;
  mret result.

(** ** [computeProgress] *)

Record Progress : Set := {
  totalCards : Z;
  learnedCards : Z;
  bucketDistribution : list Z
}.

Fixpoint computeProgress_loop (buckets : list loc) (i : nat) (totalCards : Z)
    (bucketDistribution : list Z) : St (Z * list Z) :=
  match buckets with
  | [] => mret (totalCards, bucketDistribution)
  | set :: rest =>
      count ← Set_size set;
      computeProgress_loop rest (S i) (totalCards + count)
                           (array_set bucketDistribution i count)
  end.

(** [x || 0] on an optional number: [undefined] and [0] both give [0]. *)
Definition or_zero (x : option Z) : Z :=
  match x with
  | Some n => if decide (n = 0) then 0 else n
  | None => 0
  end.

Definition computeProgress {History : Type} (buckets : list loc)
    (history : History) : St Progress :=
  '(totalCards, bucketDistribution) ← computeProgress_loop buckets 0 0 [];
  first ← match buckets !! 0%nat with
          | Some set => size ← Set_size set; mret (Some size)
          | None => mret None
          end;
  let learnedCards := totalCards - or_zero first in
  mret {| totalCards := totalCards;
          learnedCards := learnedCards;
          bucketDistribution := bucketDistribution |}.

(** * The path description of the turtle module

    [findPath] of the turtle-graphics file works on JavaScript numbers
    (floating point).  Their subtraction, [Math.hypot] and their rendering
    inside a template literal are taken as parameters. *)
Module Drawing.
Section path.
Variable number : Type.
Variable Turtle : Type.
Variable sub : number → number → number.
Variable hypot : number → number → number.
Variable show : number → string.

Record Point : Type := { x : number; y : number }.

Definition distance (p1 p2 : Point) : number :=
  hypot (sub (x p2) (x p1)) (sub (y p2) (y p1)).

(** [points.slice(0, -1)]: all elements but the last; the empty array for
    the empty array. *)
Definition slice_0_minus1 {A : Type} (a : list A) : list A :=
  take (length a - 1) a.

(** The template literal of the callback. *)
Definition describe (p1 p2 : Point) : string :=
  "Move from (" +:+ show (x p1) +:+ ", " +:+ show (y p1) +:+ ") to (" +:+
  show (x p2) +:+ ", " +:+ show (y p2) +:+ "), distance: " +:+
  show (distance p1 p2).

(** [.map((p1, i) => ...)] from index [i] on.  Reading [p2.x] when
    [points[i + 1]] is [undefined] throws a [TypeError]: [None]. *)
Fixpoint findPath_map (points : list Point) (i : nat) (rest : list Point)
    : option (list string) :=
  match rest with
  | [] => Some []
  | p1 :: rest' =>
      p2 ← points !! (i + 1)%nat;
      lines ← findPath_map points (S i) rest';
      Some (describe p1 p2 :: lines)
  end.

Definition findPath (turtle : Turtle) (points : list Point)
    : option (list string) :=
  findPath_map points 0 (slice_0_minus1 points).
End path.
End Drawing.

(** * Vocabulary of the properties *)

(** ** Sparse bucket maps *)

(** [buckets.get(k)?.has(card)]: does map [m] report [card] in bucket [k]? *)
Definition in_bucket (h : heap) (m : loc) (k : Z) (card : Flashcard) : bool :=
  match entries_get k (entries_at h m) with
  | Some s => bool_decide (card ∈ set_at h s)
  | None => false
  end.

(** A sparse bucket map in the store: a [Map] object whose keys are unique (as
    in every [Map]) and whose values are [Set] objects of the store, one
    object of its own per key. *)
Record bucket_map (h : heap) (m : loc) : Prop := BucketMap {
  bm_alloc : m ∈ dom (hmaps h);
  bm_keys : NoDup (entries_at h m).*1;
  bm_sets : ∀ s, s ∈ (entries_at h m).*2 → s ∈ dom (hsets h);
  bm_own : NoDup (entries_at h m).*2
}.

(** The invariant of the data model: no card in two buckets. *)
Definition one_bucket (h : heap) (m : loc) : Prop :=
  ∀ card k1 k2,
    in_bucket h m k1 card = true → in_bucket h m k2 card = true → k1 = k2.

(** The mapping a [Map] object stands for: bucket index to set of cards. *)
Definition buckets_of (h : heap) (m : loc) : gmap Z (gset Flashcard) :=
  list_to_map ((λ e, (e.1, set_at h e.2)) <$> entries_at h m).

(** The scenario of the specification: the map [{0: {A}, 2: {B}}], with
    [A] the card 10 and [B] the card 20. *)
Definition scenario : heap :=
  Heap {[ 1%positive := [(0, 1%positive); (2, 2%positive)] ]}
       {[ 1%positive := {[ 10%positive ]}; 2%positive := {[ 20%positive ]} ]}.


(** ** Numbers *)

(** [Number.isSafeInteger]: the integers that are doubles together with
    their neighbours. *)
Definition safe_integer (n : Z) : Prop := - 2 ^ 53 < n < 2 ^ 53.

(** The double nearest to an integer, ties going to the even significand
    (53 bits); integers beyond the largest double are not considered. *)
Definition nearest_double (z : Z) : Z :=
  if decide (Z.abs z < 2 ^ 53) then z
  else
    let e := Z.log2 (Z.abs z) - 52 in
    let q := Z.abs z / 2 ^ e in
    let r := Z.abs z `mod` 2 ^ e in
    let q' := if decide (2 * r < 2 ^ e) then q
              else if decide (2 ^ e < 2 * r) then q + 1
              else if Z.even q then q else q + 1 in
    Z.sgn z * (q' * 2 ^ e).

(** [n + 1] as the source computes it on an integer-valued double [n]. *)
Definition number_succ (n : Z) : Z := nearest_double (n + 1).

(** ** The steps of [update] *)

(** The bucket index chosen by [update]. *)
Definition next_bucket (difficulty : AnswerDifficulty) (currentBucket : Z) : Z :=
  match difficulty with
  | Easy => currentBucket + 1
  | Hard => currentBucket
  | Wrong => 0
  end.

(** The bucket [update] takes the card to be in. *)
Definition current_bucket (h : heap) (m : loc) (c : Flashcard) : Z :=
  default 0 (update_find (entries_at h m) c h).1.

(** The [Set] objects after the [delete] on the card's current bucket. *)
Definition sets_after_delete (h : heap) (m : loc) (c : Flashcard)
    : gmap loc (gset Flashcard) :=
  match entries_get (current_bucket h m c) (entries_at h m) with
  | Some s => <[s := set_at h s ∖ {[c]}]> (hsets h)
  | None => hsets h
  end.

(** ** Dense bucket arrays *)

(** Index [i] of a dense bucket array is occupied when its set is not empty. *)
Definition occupied (h : heap) (buckets : list loc) (i : nat) : Prop :=
  ∃ s, buckets !! i = Some s ∧ set_at h s ≠ ∅.

(** What the accumulators [min] and [max] hold once the indices below [i]
    have been visited. *)
Definition range_upto (h : heap) (buckets : list loc) (i : nat)
    (min max : number) : Prop :=
  match min, max with
  | Infinity, NegInfinity => ∀ j, (j < i)%nat → ¬ occupied h buckets j
  | Num lo, Num hi =>
      ∃ l u : nat, lo = Z.of_nat l ∧ hi = Z.of_nat u ∧
        (l < i)%nat ∧ (u < i)%nat ∧
        occupied h buckets l ∧ occupied h buckets u ∧
        ∀ j, (j < i)%nat → occupied h buckets j → (l ≤ j ≤ u)%nat
  | _, _ => False
  end.

(** Bucket [i] is due on day [day], as the code tests it. *)
Definition due (i : nat) (day : Z) : Prop :=
  i = 0%nat ∨ Z.rem day (2 ^ Z.of_nat i) = 0.

(** The sizes of the sets of a dense bucket array, in order. *)
Definition sizes (h : heap) (buckets : list loc) : list Z :=
  (λ s, Z.of_nat (size (set_at h s))) <$> buckets.

(** * Properties *)

(** ** Reading the store *)

Lemma in_bucket_spec h m k c :
  in_bucket h m k c = true ↔
  ∃ s, entries_get k (entries_at h m) = Some s ∧ c ∈ set_at h s.
Proof.
  unfold in_bucket. destruct (entries_get k (entries_at h m)) as [s|].
  - rewrite bool_decide_eq_true. naive_solver.
  - naive_solver.
Qed.

(** *** Facts about entry lists *)

Lemma entries_get_elem k s (es : entries) :
  entries_get k es = Some s → (k, s) ∈ es.
Proof.
  induction es as [|[k' v] es IH]; simpl; [done|].
  case_decide; intros ?; simplify_eq; [left | right; auto].
Qed.

Lemma entries_get_None k (es : entries) :
  entries_get k es = None ↔ k ∉ es.*1.
Proof.
  induction es as [|[k' v] es IH]; simpl.
  - split; [intros _; apply not_elem_of_nil | done].
  - case_decide; subst; rewrite ?not_elem_of_cons; naive_solver.
Qed.

Lemma entries_get_set k k' v (es : entries) :
  entries_get k (entries_set k' v es) =
  if decide (k' = k) then Some v else entries_get k es.
Proof.
  induction es as [|[k0 v0] es IH]; simpl.
  - repeat case_decide; congruence.
  - repeat (case_decide; simpl; subst); try congruence.
Qed.

Lemma entries_set_new k v (es : entries) :
  entries_get k es = None → entries_set k v es = es ++ [(k, v)].
Proof.
  induction es as [|[k0 v0] es IH]; simpl; [done|].
  case_decide; [done|]. intros ?. f_equal. auto.
Qed.

Lemma entries_get_inj k1 k2 s (es : entries) :
  NoDup es.*2 → entries_get k1 es = Some s → entries_get k2 es = Some s → k1 = k2.
Proof.
  induction es as [|[k0 v0] es IH]; csimpl; [done|].
  intros [Hnotin Hnd]%NoDup_cons.
  repeat case_decide; intros ??; simplify_eq; auto.
  - exfalso. apply Hnotin. apply (list_elem_of_fmap_2 snd _ (k2, s)).
    by apply entries_get_elem.
  - exfalso. apply Hnotin. apply (list_elem_of_fmap_2 snd _ (k1, s)).
    by apply entries_get_elem.
Qed.

Lemma entries_get_values k s (es : entries) :
  entries_get k es = Some s → s ∈ es.*2.
Proof.
  intros H%entries_get_elem. by apply (list_elem_of_fmap_2 snd _ (k, s)).
Qed.

(** *** The scan of [update] *)

(** The scan only reads. *)
Lemma update_find_heap es c h : (update_find es c h).2 = h.
Proof.
  induction es as [|[b s] es IH]; simpl; [done|].
  unfold mbind, St_bind, Set_has. by case_bool_decide.
Qed.

(** A bucket it reports does hold the card. *)
Lemma update_find_Some es c h b :
  NoDup es.*1 →
  (update_find es c h).1 = Some b →
  ∃ s, entries_get b es = Some s ∧ c ∈ set_at h s.
Proof.
  induction es as [|[b0 s0] es IH]; csimpl; [done|].
  intros [Hnotin Hnd]%NoDup_cons.
  unfold mbind, St_bind, Set_has. case_bool_decide; simpl.
  - intros [= <-]. exists s0. by rewrite decide_True.
  - intros Hf. destruct (IH Hnd Hf) as (s & Hs & Hc). exists s. split; [|done].
    rewrite decide_False; [done|]. intros ->. apply Hnotin.
    apply (list_elem_of_fmap_2 fst _ (b, s)). by apply entries_get_elem.
Qed.

(** When it reports none, no bucket holds the card. *)
Lemma update_find_None es c h k s :
  (update_find es c h).1 = None →
  entries_get k es = Some s → c ∉ set_at h s.
Proof.
  induction es as [|[b0 s0] es IH]; csimpl; [done|].
  unfold mbind, St_bind, Set_has. case_bool_decide; simpl; [done|].
  intros Hf. case_decide; [by intros [= <-] | by apply IH].
Qed.

Lemma set_at_insert hm σ s v s' :
  set_at (Heap hm (<[s := v]> σ)) s' =
  if decide (s = s') then v else set_at (Heap hm σ) s'.
Proof.
  unfold set_at. simpl. rewrite lookup_insert. by case_decide.
Qed.

Lemma entries_at_insert hm σ m es m' :
  entries_at (Heap (<[m := es]> hm) σ) m' =
  if decide (m = m') then es else entries_at (Heap hm σ) m'.
Proof.
  unfold entries_at. simpl. rewrite lookup_insert. by case_decide.
Qed.

(** *** [update], run on a store *)

Lemma update_run h m c q :
  let es := entries_at h m in
  let m' := fresh (dom (hmaps h)) in
  let σ := sets_after_delete h m c in
  let nb := next_bucket q (current_bucket h m c) in
  update m c q h =
  match entries_get nb es with
  | Some s' =>
      (m', Heap (<[m' := es]> (hmaps h))
                (<[s' := {[c]} ∪ default ∅ (σ !! s')]> σ))
  | None =>
      let s' := fresh (dom σ) in
      (m', Heap (<[m' := es ++ [(nb, s')]]> (hmaps h)) (<[s' := {[c]}]> σ))
  end.
Proof.
  intros es m' σ nb. subst σ. unfold sets_after_delete.
  fold es. unfold nb, current_bucket. fold es. clear nb.
  unfold update, mbind, St_bind, Map_entries. fold es.
  pose proof (update_find_heap es c h) as Hh.
  destruct (update_find es c h) as [found h1]. simpl in Hh. subst h1.
  cbn [fst]. set (cur := default 0 found).
  unfold Map_new, Map_get. fold m'.
  rewrite entries_at_insert, decide_True by done.
  fold (next_bucket q cur).
  destruct (entries_get cur es) as [s|] eqn:Hold;
    unfold Set_delete, mret, St_ret; cbn [hmaps hsets];
    rewrite entries_at_insert, decide_True by done;
    (destruct (entries_get (next_bucket q cur) es) as [s'|] eqn:Hnew;
     [ unfold Set_add; by cbn [hmaps hsets]
     | unfold Set_new, Map_set, Set_add; cbn [hmaps hsets];
       rewrite entries_at_insert, decide_True by done;
       rewrite insert_insert_eq, set_at_insert, decide_True by done;
       rewrite insert_insert_eq, (entries_set_new _ _ _ Hnew);
       by rewrite (right_id_L ∅ (∪)) ]).
Qed.

Lemma entries_get_app k (es1 es2 : entries) :
  entries_get k (es1 ++ es2) =
  match entries_get k es1 with Some s => Some s | None => entries_get k es2 end.
Proof.
  induction es1 as [|[k0 v0] es1 IH]; simpl; [done|]. by case_decide.
Qed.

Lemma sets_after_delete_other h m c c' x :
  c' ≠ c → c' ∈ default ∅ (sets_after_delete h m c !! x) ↔ c' ∈ set_at h x.
Proof.
  intros Hne. unfold sets_after_delete.
  destruct (entries_get _ _) as [s|]; [|done].
  rewrite lookup_insert. case_decide; subst; simpl; [|done]. set_solver.
Qed.

Lemma sets_after_delete_card h m c k x :
  (∀ k, in_bucket h m k c = true → k = current_bucket h m c) →
  entries_get k (entries_at h m) = Some x →
  c ∉ default ∅ (sets_after_delete h m c !! x).
Proof.
  intros Hcur Hk Hin. unfold sets_after_delete in Hin.
  destruct (entries_get (current_bucket h m c) (entries_at h m)) as [s|] eqn:Hs.
  - rewrite lookup_insert in Hin. case_decide; subst; simpl in Hin; [set_solver|].
    assert (k = current_bucket h m c) as ->
      by (apply Hcur, in_bucket_spec; eauto).
    congruence.
  - assert (k = current_bucket h m c) as ->
      by (apply Hcur, in_bucket_spec; eauto).
    congruence.
Qed.

Lemma sets_after_delete_dom h m c :
  bucket_map h m → dom (sets_after_delete h m c) = dom (hsets h).
Proof.
  intros Hbm. unfold sets_after_delete.
  destruct (entries_get _ _) as [s|] eqn:Hs; [|done].
  rewrite dom_insert_L. apply entries_get_values, (bm_sets _ _ Hbm) in Hs.
  set_solver.
Qed.

Lemma update_core h m c q m' h' :
  bucket_map h m →
  (∀ k, in_bucket h m k c = true → k = current_bucket h m c) →
  update m c q h = (m', h') →
  (m' ∉ dom (hmaps h)) ∧
  bucket_map h' m' ∧
  (∀ k, in_bucket h' m' k c = true ↔ k = next_bucket q (current_bucket h m c)) ∧
  (∀ k c', c' ≠ c → in_bucket h' m' k c' = in_bucket h m k c').
Proof.
  intros Hbm Hcur. rewrite update_run.
  pose proof (sets_after_delete_other h m c) as Hother.
  pose proof (sets_after_delete_card h m c) as Hcard.
  pose proof (sets_after_delete_dom h m c Hbm) as Hdom.
  destruct Hbm as [Halloc Hkeys Hsets Hown].
  set (es := entries_at h m) in *. set (σ := sets_after_delete h m c) in *.
  set (nb := next_bucket q (current_bucket h m c)).
  destruct (entries_get nb es) as [s'|] eqn:Hnb; intros [= <- <-].
  - split; [apply is_fresh|]. split; [|split].
    + constructor; cbn [hmaps hsets].
      * rewrite dom_insert_L. set_solver.
      * by rewrite entries_at_insert, decide_True.
      * rewrite entries_at_insert, decide_True by done. intros s Hs.
        rewrite dom_insert_L, Hdom. set_solver.
      * by rewrite entries_at_insert, decide_True.
    + intros k. rewrite in_bucket_spec, entries_at_insert, decide_True by done.
      split.
      * intros (s & Hs & Hin). rewrite set_at_insert in Hin.
        case_decide; subst; [by eapply entries_get_inj|].
        exfalso. by eapply Hcard.
      * intros ->. exists s'. split; [done|].
        rewrite set_at_insert, decide_True by done. set_solver.
    + intros k c' Hne. apply eq_true_iff_eq.
      rewrite !in_bucket_spec, entries_at_insert, decide_True by done.
      fold es. apply exist_proper; intros s. apply and_iff_compat_l.
      rewrite set_at_insert. case_decide; subst.
      * rewrite elem_of_union, Hother by done. set_solver.
      * by apply Hother.
  - assert (fresh (dom σ) ∉ es.*2) as Hfresh.
    { intros Hin%Hsets. rewrite <-Hdom in Hin. by apply is_fresh in Hin. }
    apply entries_get_None in Hnb as Hnbk.
    split; [apply is_fresh|]. split; [|split].
    + constructor; cbn [hmaps hsets].
      * rewrite dom_insert_L. set_solver.
      * rewrite entries_at_insert, decide_True by done.
        rewrite fmap_app. apply NoDup_app. split; [done|].
        split; [|apply NoDup_singleton]. intros x Hx [->|[]%elem_of_nil]%elem_of_cons.
        done.
      * rewrite entries_at_insert, decide_True by done. intros s.
        rewrite fmap_app, elem_of_app, dom_insert_L, Hdom.
        intros [Hs|[->|[]%elem_of_nil]%elem_of_cons]; set_solver.
      * rewrite entries_at_insert, decide_True by done.
        rewrite fmap_app. apply NoDup_app. split; [done|].
        split; [|apply NoDup_singleton]. intros x Hx [->|[]%elem_of_nil]%elem_of_cons.
        done.
    + intros k. rewrite in_bucket_spec, entries_at_insert, decide_True by done.
      setoid_rewrite entries_get_app. split.
      * intros (s & Hs & Hin). rewrite set_at_insert in Hin.
        destruct (entries_get k es) as [t|] eqn:Ht.
        -- simplify_eq. exfalso. rewrite decide_False in Hin.
           2:{ intros <-. by apply Hfresh, (entries_get_values k). }
           by eapply Hcard.
        -- simpl in Hs. by destruct (decide (nb = k)).
      * intros ->. exists (fresh (dom σ)). fold nb. rewrite Hnb. simpl.
        rewrite decide_True by done. split; [done|].
        rewrite set_at_insert, decide_True by done. set_solver.
    + intros k c' Hne. apply eq_true_iff_eq.
      rewrite !in_bucket_spec, entries_at_insert, decide_True by done.
      fold es. setoid_rewrite entries_get_app.
      destruct (entries_get k es) as [t|] eqn:Ht.
      * assert (fresh (dom σ) ≠ t) as Hft.
        { intros <-. by apply Hfresh, (entries_get_values k). }
        split; intros (s & Hs & Hin); simplify_eq; exists s; (split; [done|]).
        -- rewrite set_at_insert, decide_False in Hin by done. by apply Hother in Hin.
        -- rewrite set_at_insert, decide_False by done. by apply Hother.
      * split; [|naive_solver]. intros (s & Hs & Hin). simpl in Hs.
        case_decide; [|done]. simplify_eq.
        rewrite set_at_insert, decide_True in Hin by done. set_solver.
Qed.

Lemma current_bucket_found h m c b :
  bucket_map h m → one_bucket h m →
  in_bucket h m b c = true → current_bucket h m c = b.
Proof.
  intros Hbm Hone Hb. unfold current_bucket.
  destruct (update_find (entries_at h m) c h).1 as [b'|] eqn:Hfind; simpl.
  - apply update_find_Some in Hfind as (s & Hs & Hin); [|apply Hbm].
    apply (Hone c); [|done]. apply in_bucket_spec. eauto.
  - apply in_bucket_spec in Hb as (s & Hs & Hin).
    by destruct (update_find_None _ _ _ _ _ Hfind Hs).
Qed.

Lemma current_bucket_absent h m c :
  (∀ k s, (k, s) ∈ entries_at h m → c ∉ set_at h s) →
  current_bucket h m c = 0.
Proof.
  intros Habs. unfold current_bucket.
  assert (∀ es, (∀ k s, (k, s) ∈ es → c ∉ set_at h s) →
                (update_find es c h).1 = None) as Hscan.
  { induction es as [|[b0 s0] es IH]; simpl; [done|]. intros Hes.
    unfold mbind, St_bind, Set_has. rewrite bool_decide_eq_false_2.
    - apply IH. intros k s Hin. apply (Hes k). by right.
    - apply (Hes b0). by left. }
  by rewrite Hscan.
Qed.

(** The original [Map] object keeps its entries, and the returned map is a
    different object. *)
Lemma update_keeps_entries h m c q m' h' :
  m ∈ dom (hmaps h) → update m c q h = (m', h') →
  m' ≠ m ∧ hmaps h' !! m = hmaps h !! m.
Proof.
  intros Halloc. rewrite update_run.
  assert (fresh (dom (hmaps h)) ≠ m) as Hne.
  { intros Heq. rewrite <-Heq in Halloc. by apply is_fresh in Halloc. }
  destruct (entries_get _ _); intros [= <- <-]; cbn [hmaps];
    by rewrite lookup_insert_ne.
Qed.

(** The [Set] objects are shared between the two maps: once the card has
    moved to another bucket of the returned map, the original map has lost
    it as well. *)
Lemma update_original_loses_card h m c q b m' h' :
  bucket_map h m → one_bucket h m → in_bucket h m b c = true →
  match q with Easy => b + 1 | Hard => b | Wrong => 0 end ≠ b →
  update m c q h = (m', h') →
  in_bucket h' m b c = false.
Proof.
  intros Hbm Hone Hb Hmove Hup.
  pose proof (current_bucket_found _ _ _ _ Hbm Hone Hb) as Hcb.
  destruct (update_core h m c q m' h' Hbm) as (_ & _ & Hc & _); [|done|].
  { intros k Hk. by rewrite (current_bucket_found _ _ _ _ Hbm Hone Hk). }
  rewrite Hcb in Hc. unfold next_bucket in Hc.
  destruct (update_keeps_entries h m c q m' h' (bm_alloc _ _ Hbm) Hup) as [_ Hsame].
  apply not_true_is_false. intros Hin. apply Hmove. symmetry. apply Hc.
  apply in_bucket_spec in Hin as (s & Hs & Hin). apply in_bucket_spec.
  exists s. split; [|done].
  unfold entries_at in Hs. rewrite Hsame in Hs. fold (entries_at h m) in Hs.
  revert Hup. rewrite update_run.
  destruct (entries_get (next_bucket _ _) _); intros [= <- <-];
    rewrite entries_at_insert, decide_True by done; [done|].
  by rewrite entries_get_app, Hs.
Qed.

(** *** Checking a concrete store *)

Ltac decide_store := apply (bool_decide_unpack _); vm_compute; exact I.

Lemma bucket_map_intro h m :
  is_Some (hmaps h !! m) →
  NoDup (entries_at h m).*1 →
  Forall (λ s, is_Some (hsets h !! s)) (entries_at h m).*2 →
  NoDup (entries_at h m).*2 →
  bucket_map h m.
Proof.
  intros Hm Hk Hs Ho. constructor; [by apply elem_of_dom|done| |done].
  intros s Hin. apply elem_of_dom. by eapply (proj1 (Forall_forall _ _) Hs).
Qed.

Lemma one_bucket_intro h m :
  Forall (λ e1, Forall (λ e2, e1.1 ≠ e2.1 → set_at h e1.2 ## set_at h e2.2)
                       (entries_at h m)) (entries_at h m) →
  one_bucket h m.
Proof.
  intros Hall c k1 k2 (s1 & Hs1 & Hc1)%in_bucket_spec (s2 & Hs2 & Hc2)%in_bucket_spec.
  apply entries_get_elem in Hs1, Hs2.
  rewrite Forall_forall in Hall. specialize (Hall _ Hs1).
  rewrite Forall_forall in Hall. specialize (Hall _ Hs2). simpl in Hall.
  destruct (decide (k1 = k2)) as [|Hne]; [done|]. set_solver.
Qed.

Lemma scenario_bucket_map : bucket_map scenario 1%positive.
Proof. apply bucket_map_intro; decide_store. Defined.

Lemma scenario_one_bucket : one_bucket scenario 1%positive.
Proof. apply one_bucket_intro; decide_store. Defined.

(** ** [update]: the claims *)

(** C1 (the code departs from the claim).  The claim: [update] leaves the
    original map and its sets unchanged, so after [update(M, card, Easy)] the
    map [M] still reports [card] in its original bucket.  The code copies
    only the [Map] object and deletes the card from the [Set] object that
    both maps share: on [M = {2: {card}}], [M] reports the card in bucket 2
    before the call and no longer after it; the original [Map] object itself
    keeps its entries, and the returned map is another object. *)
Theorem update_mutates_original_sets :
  let h := Heap {[ 1%positive := [(2, 1%positive)] ]}
                {[ 1%positive := {[ 7%positive ]} ]} in
  let r := update 1%positive 7%positive Easy h in
  in_bucket h 1%positive 2 7%positive = true ∧
  in_bucket r.2 1%positive 2 7%positive = false ∧
  in_bucket r.2 r.1 3 7%positive = true ∧
  r.1 ≠ 1%positive ∧
  entries_at r.2 1%positive = entries_at h 1%positive.
Proof. vm_compute. by repeat split. Qed.

(** On a safe integer the sum [n + 1] of the source is the integer sum. *)
Lemma number_succ_safe n : safe_integer n → number_succ n = n + 1.
Proof.
  unfold safe_integer, number_succ, nearest_double.
  assert (2 ^ 53 = 9007199254740992) as -> by reflexivity. intros Hn.
  destruct (decide (n + 1 = 9007199254740992)) as [->|Hne]; [reflexivity|].
  rewrite decide_True; [done|lia].
Qed.

(** From [2^53] on it is not: [2^53 + 1] is [2^53] again. *)
Example number_succ_unsafe : number_succ (2 ^ 53) = 2 ^ 53.
Proof. reflexivity. Qed.




Example update_scenario :
  let r := update 1%positive 10%positive Easy scenario in
  buckets_of scenario 1%positive = {[ 0 := {[ 10%positive ]}; 2 := {[ 20%positive ]} ]} ∧
  buckets_of r.2 r.1 = {[ 0 := ∅; 1 := {[ 10%positive ]}; 2 := {[ 20%positive ]} ]}.
Proof. by vm_compute. Qed.

(** C4.  [update] returns a map for every store, map, card and answer; when
    no bucket of the map holds the card, the card is taken to be in bucket 0:
    it is in bucket 1 of the returned map after [Easy] and in bucket 0 after
    [Hard] or [Wrong]. *)
Theorem update_total_lenient h m c q :
  ∃ m' h', update m c q h = (m', h') ∧
    ((∀ k s, (k, s) ∈ entries_at h m → c ∉ set_at h s) →
     in_bucket h' m' (match q with Easy => 1 | Hard | Wrong => 0 end) c = true).
Proof.
  destruct (update m c q h) as [m' h'] eqn:Hup. exists m', h'. split; [done|].
  intros Habs. revert Hup. rewrite update_run, (current_bucket_absent _ _ _ Habs).
  assert (next_bucket q 0 = match q with Easy => 1 | Hard | Wrong => 0 end) as ->
    by by destruct q.
  set (nb := match q with Easy => 1 | _ => 0 end).
  destruct (entries_get nb (entries_at h m)) as [s'|] eqn:Hnb;
    intros [= <- <-]; apply in_bucket_spec;
    rewrite entries_at_insert, decide_True by done.
  - exists s'. split; [done|]. rewrite set_at_insert, decide_True by done.
    set_solver.
  - eexists. rewrite entries_get_app, Hnb. simpl. rewrite decide_True by done.
    split; [done|]. rewrite set_at_insert, decide_True by done. set_solver.
Qed.

Lemma update_total_lenient_witness :
  let h := Heap {[ 1%positive := [(0, 1%positive)] ]}
                {[ 1%positive := {[ 7%positive ]} ]} in
  let r := update 1%positive 8%positive Easy h in
  (∀ k s, (k, s) ∈ entries_at h 1%positive → 8%positive ∉ set_at h s) ∧
  in_bucket r.2 r.1 1 8%positive = true.
Proof.
  intros h r.
  assert (∀ k s, (k, s) ∈ entries_at h 1%positive → 8%positive ∉ set_at h s)
    as Habs.
  { intros k s [[= -> ->]|[]%elem_of_nil]%elem_of_cons. by vm_compute. }
  split; [exact Habs|].
  destruct (update_total_lenient h 1%positive 8%positive Easy)
    as (m' & h' & Hup & Hin).
  subst r. rewrite Hup. exact (Hin Habs).
Defined.




(** The requirement of [bucket_map] that every key has a [Set] object of its
    own is used: when two keys hold one and the same empty [Set] object, a
    card moved into one of the two buckets is reported in both. *)
Example update_shared_set_object :
  let h := Heap {[ 1%positive := [(0, 1%positive); (1, 2%positive); (5, 2%positive)] ]}
                {[ 1%positive := {[ 10%positive ]}; 2%positive := ∅ ]} in
  let r := update 1%positive 10%positive Easy h in
  one_bucket h 1%positive ∧
  in_bucket r.2 r.1 1 10%positive = true ∧
  in_bucket r.2 r.1 5 10%positive = true.
Proof.
  split; [apply one_bucket_intro; decide_store | by vm_compute].
Qed.

(** ** [toBucketSets] *)

Lemma array_set_end {A} (a : list A) v : array_set a (length a) v = a ++ [v].
Proof. unfold array_set. rewrite decide_False; [done|lia]. Qed.

(** The largest-key loop returns 0 or a key, and bounds every key. *)
Lemma toBucketSets_max_spec keys :
  let r := toBucketSets_max keys in
  0 ≤ r ∧ (∀ k, k ∈ keys → k ≤ r) ∧ (r = 0 ∨ r ∈ keys).
Proof.
  unfold toBucketSets_max.
  assert (∀ acc, let r := foldl (λ maxBucket key,
                     if decide (key > maxBucket) then key else maxBucket) acc keys in
                 acc ≤ r ∧ (∀ k, k ∈ keys → k ≤ r) ∧ (r = acc ∨ r ∈ keys)) as Hgen.
  { induction keys as [|key keys IH]; intros acc; simpl.
    - split; [lia|]. split; [|by left]. by intros k ?%elem_of_nil.
    - destruct (IH (if decide (key > acc) then key else acc)) as (Hle & Hub & Hor).
      split; [case_decide; lia|]. split.
      + intros k [->|Hk]%elem_of_cons; [case_decide; lia | by apply Hub].
      + destruct Hor as [Hr|Hr]; [|right; by right].
        case_decide; [right; apply elem_of_cons; by left | by left]. }
  apply Hgen.
Qed.

Lemma toBucketSets_max_is_max keys maxKey :
  maxKey ∈ keys → (∀ k, k ∈ keys → 0 ≤ k ≤ maxKey) →
  toBucketSets_max keys = maxKey.
Proof.
  intros Hin Hall. destruct (toBucketSets_max_spec keys) as (H0 & Hub & Hor).
  specialize (Hub _ Hin). destruct Hor as [Hr|Hr].
  - specialize (Hall _ Hin). lia.
  - specialize (Hall _ Hr). lia.
Qed.

Lemma toBucketSets_loop_spec m n : ∀ i result h,
  length result = i →
  ∃ ext h',
    toBucketSets_loop m n i result h = (result ++ ext, h') ∧
    length ext = n ∧
    hmaps h' = hmaps h ∧
    dom (hsets h) ⊆ dom (hsets h') ∧
    (∀ s, set_at h' s = set_at h s) ∧
    (∀ j, (j < n)%nat →
       match entries_get (Z.of_nat (i + j)) (entries_at h m) with
       | Some s => ext !! j = Some s
       | None => ∃ s, ext !! j = Some s ∧ (s ∉ dom (hsets h)) ∧
                      hsets h' !! s = Some ∅
       end).
Proof.
  induction n as [|n IH]; intros i result h Hlen; simpl.
  - exists [], h. rewrite app_nil_r. repeat split; try done. lia.
  - unfold mbind, St_bind, Map_get. subst i. 
    destruct (entries_get (Z.of_nat (length result)) (entries_at h m)) as [s|] eqn:Hget.
    + unfold mret, St_ret. rewrite array_set_end.
      destruct (IH (S (length result)) (result ++ [s]) h) as (ext & h' & Hrun & Hl & Hm & Hd & Hs & Hslots).
      { rewrite length_app. simpl. lia. }
      exists (s :: ext), h'. rewrite Hrun, <-app_assoc. simpl.
      repeat split; try done; [by rewrite Hl|]. intros [|j] Hj.
      * by rewrite Nat.add_0_r, Hget.
      * specialize (Hslots j ltac:(lia)).
        by replace (length result + S j)%nat with (S (length result) + j)%nat by lia.
    + unfold Set_new. rewrite array_set_end.
      set (s := fresh (dom (hsets h))).
      set (h1 := Heap (hmaps h) (<[s := ∅]> (hsets h))).
      assert (s ∉ dom (hsets h)) as Hfresh by apply is_fresh.
      destruct (IH (S (length result)) (result ++ [s]) h1) as (ext & h' & Hrun & Hl & Hm & Hd & Hs & Hslots).
      { rewrite length_app. simpl. lia. }
      exists (s :: ext), h'. rewrite Hrun, <-app_assoc. simpl.
      assert (dom (hsets h) ⊆ dom (hsets h1)) as Hd1.
      { unfold h1. simpl. rewrite dom_insert_L. set_solver. }
      split; [done|]. split; [by rewrite Hl|]. split; [done|].
      split; [set_solver|]. split.
      * intros x. rewrite Hs. unfold h1. rewrite set_at_insert.
        case_decide; [|done]. subst x. unfold set_at.
        by rewrite (not_elem_of_dom_1 _ _ Hfresh).
      * intros [|j] Hj.
        -- rewrite Nat.add_0_r, Hget. exists s. split; [done|]. split; [done|].
           assert (s ∈ dom (hsets h')) as [X HX]%elem_of_dom.
           { apply Hd. unfold h1. simpl. rewrite dom_insert_L. set_solver. }
           specialize (Hs s). unfold set_at in Hs. rewrite HX in Hs. simpl in Hs.
           unfold h1 in Hs. simpl in Hs. rewrite lookup_insert_eq in Hs. simpl in Hs.
           by rewrite HX, Hs.
        -- specialize (Hslots j ltac:(lia)).
           replace (length result + S j)%nat with (S (length result) + j)%nat by lia.
           change (entries_at h1 m) with (entries_at h m) in Hslots.
           destruct (entries_get (Z.of_nat (S (length result) + j)) (entries_at h m));
             [done|].
           destruct Hslots as (x & Hx & Hxd & Hxe). exists x. set_solver.
Qed.

(** C8.  For a sparse bucket map with at least one key, non-negative keys and
    largest key [maxKey], [toBucketSets] returns an array of length
    [maxKey + 1]; slot [i] is the map's own set for key [i] when the key is
    present, and a newly created empty set when it is absent.  The [Map]
    objects and the contents of every [Set] are left as they were. *)
Theorem toBucketSets_dense h m maxKey :
  maxKey ∈ (entries_at h m).*1 →
  (∀ k, k ∈ (entries_at h m).*1 → 0 ≤ k ≤ maxKey) →
  ∃ arr h',
    toBucketSets m h = (arr, h') ∧
    Z.of_nat (length arr) = maxKey + 1 ∧
    (∀ i, (i < length arr)%nat →
       match entries_get (Z.of_nat i) (entries_at h m) with
       | Some s => arr !! i = Some s
       | None => ∃ s, arr !! i = Some s ∧ (s ∉ dom (hsets h)) ∧
                      hsets h' !! s = Some ∅
       end) ∧
    hmaps h' = hmaps h ∧
    (∀ s, set_at h' s = set_at h s).
Proof.
  intros Hin Hall. unfold toBucketSets, mbind, St_bind, Map_keys.
  rewrite (toBucketSets_max_is_max _ _ Hin Hall).
  destruct (toBucketSets_loop_spec m (Z.to_nat (maxKey + 1)) 0 [] h eq_refl)
    as (ext & h' & Hrun & Hl & Hm & Hd & Hs & Hslots).
  exists ext, h'. rewrite Hrun. simpl. split; [done|].
  specialize (Hall _ Hin). split; [lia|]. split; [|done].
  intros i Hi. apply Hslots. lia.
Qed.

Lemma toBucketSets_dense_witness :
  let r := toBucketSets 1%positive scenario in
  Z.of_nat (length r.1) = 2 + 1 ∧ r.1 !! 0%nat = Some 1%positive ∧
  r.1 !! 2%nat = Some 2%positive.
Proof.
  destruct (toBucketSets_dense scenario 1%positive 2)
    as (arr & h' & Hrun & Hlen & Hslots & _).
  - vm_compute. set_solver.
  - intros k Hk. vm_compute in Hk. 
    apply elem_of_cons in Hk as [->|Hk]; [lia|].
    apply elem_of_cons in Hk as [->|Hk]; [lia|]. by apply elem_of_nil in Hk.
  - intros r. subst r. rewrite Hrun. simpl. split; [done|].
    split; [apply (Hslots 0%nat)|apply (Hslots 2%nat)]; lia.
Defined.

(** C2 (as the code has it).  On a map without entries [toBucketSets] starts
    from [maxBucket = 0] and runs its second loop once: it returns an array
    of length 1 whose only slot is a newly created empty set. *)
Theorem toBucketSets_empty_map h m :
  entries_at h m = [] →
  ∃ s h',
    toBucketSets m h = ([s], h') ∧
    (s ∉ dom (hsets h)) ∧ hsets h' !! s = Some ∅ ∧ hmaps h' = hmaps h.
Proof.
  intros Hes. unfold toBucketSets, mbind, St_bind, Map_keys. rewrite Hes. simpl.
  unfold mbind, St_bind, Map_get. rewrite Hes. simpl. unfold Set_new.
  eexists _, _. split; [reflexivity|]. simpl.
  split; [apply is_fresh|]. by rewrite lookup_insert_eq.
Qed.

Lemma toBucketSets_empty_map_witness :
  let h := Heap {[ 1%positive := [] ]} ∅ in
  ∃ s h', toBucketSets 1%positive h = ([s], h') ∧
          (s ∉ dom (hsets h)) ∧ hsets h' !! s = Some ∅ ∧ hmaps h' = hmaps h.
Proof. intros h. apply (toBucketSets_empty_map h 1%positive). reflexivity. Defined.

(** The claim C2 as stated fails: on an empty map the result is not the empty
    array. *)
Lemma toBucketSets_empty_map_not_empty :
  let h := Heap {[ 1%positive := [] ]} ∅ in
  entries_at h 1%positive = [] ∧ (toBucketSets 1%positive h).1 ≠ [].
Proof. by vm_compute. Qed.

(** ** [getBucketRange] *)

Lemma size_positive (X : gset Flashcard) : Z.of_nat (size X) > 0 ↔ X ≠ ∅.
Proof.
  rewrite <-(leibniz_equiv_iff X ∅), <-size_non_empty_iff. lia.
Qed.

Lemma getBucketRange_loop_spec h rest : ∀ done min max,
  range_upto h (done ++ rest) (length done) min max →
  ∃ min' max',
    getBucketRange_loop rest (length done) min max h = ((min', max'), h) ∧
    range_upto h (done ++ rest) (length (done ++ rest)) min' max'.
Proof.
  induction rest as [|s rest IH]; intros done min max Hinv; simpl.
  - exists min, max. by rewrite app_nil_r in *.
  - unfold mbind, St_bind, Set_size.
    assert ((done ++ s :: rest) !! length done = Some s) as Hhere
      by by rewrite list_lookup_middle.
    replace (S (length done)) with (length (done ++ [s]))
      by (rewrite length_app; simpl; lia).
    rewrite (cons_middle s done rest), app_assoc in *.
    case_decide as Hsize.
    + apply size_positive in Hsize.
      assert (occupied h ((done ++ [s]) ++ rest) (length done)) as Hocc
        by by exists s.
      apply IH. rewrite length_app.
      destruct min as [|lo|], max as [|hi|]; simpl in *; try done.
      * destruct Hinv as (l & u & -> & -> & Hli & Hui & Hl & Hu & Hb).
        rewrite bool_decide_eq_false_2, bool_decide_eq_true_2 by lia.
        exists l, (length done). split_and!; try done; try lia.
        intros j Hj Hoj. destruct (decide (j = length done)) as [->|]; [lia|].
        specialize (Hb j ltac:(lia) Hoj). lia.
      * exists (length done), (length done). split_and!; try done; try lia.
        intros j Hj Hoj. destruct (decide (j = length done)) as [->|]; [lia|].
        destruct (Hinv j); [lia|done].
    + apply IH. rewrite length_app.
      assert (¬ occupied h ((done ++ [s]) ++ rest) (length done)) as Hocc.
      { intros (s' & Hs' & Hne). simplify_eq. by apply size_positive in Hne. }
      destruct min as [|lo|], max as [|hi|]; simpl in *; try done.
      * destruct Hinv as (l & u & -> & -> & Hli & Hui & Hl & Hu & Hb).
        exists l, u. split_and!; try done; try lia.
        intros j Hj Hoj. destruct (decide (j = length done)) as [->|]; [done|].
        apply Hb; [lia|done].
      * intros j Hj Hoj. destruct (decide (j = length done)) as [->|]; [done|].
        apply (Hinv j); [lia|done].
Qed.

Lemma occupied_lt h buckets i : occupied h buckets i → (i < length buckets)%nat.
Proof. intros (s & Hs & _). by eapply lookup_lt_Some. Qed.

Lemma getBucketRange_core h buckets :
  ∃ r, getBucketRange buckets h = (r, h) ∧
    match r with
    | None => ∀ i, ¬ occupied h buckets i
    | Some range =>
        ∃ l u : nat,
          range = {| minBucket := Num (Z.of_nat l); maxBucket := Num (Z.of_nat u) |} ∧
          occupied h buckets l ∧ occupied h buckets u ∧
          ∀ i, occupied h buckets i → (l ≤ i ≤ u)%nat
    end.
Proof.
  destruct (getBucketRange_loop_spec h buckets [] Infinity NegInfinity)
    as (min & max & Hrun & Hinv).
  { simpl. intros j Hj. lia. }
  simpl in Hrun, Hinv. unfold getBucketRange, mbind, St_bind. rewrite Hrun.
  destruct min as [|lo|], max as [|hi|]; simpl in Hinv; try done.
  - destruct Hinv as (l & u & -> & -> & _ & _ & Hl & Hu & Hb).
    eexists. split; [reflexivity|]. exists l, u. split_and!; try done.
    intros i Hi. apply Hb; [|done]. by eapply occupied_lt.
  - eexists. split; [reflexivity|]. intros i Hi. apply (Hinv i); [|done].
    by eapply occupied_lt.
Qed.

(** C6.  [getBucketRange] only reads.  It returns [undefined] exactly when no
    index of the array is occupied (so also on the array of length 0), and
    otherwise the least and the greatest occupied index; with a single
    occupied index [i] that is the pair [(i, i)]. *)
Theorem getBucketRange_spec h buckets :
  ∃ r, getBucketRange buckets h = (r, h) ∧
    (r = None ↔ ∀ i, ¬ occupied h buckets i) ∧
    (∀ lo hi : nat,
       occupied h buckets lo → occupied h buckets hi →
       (∀ i, occupied h buckets i → (lo ≤ i ≤ hi)%nat) →
       r = Some {| minBucket := Num (Z.of_nat lo);
                   maxBucket := Num (Z.of_nat hi) |}) ∧
    (∀ i, occupied h buckets i → (∀ j, occupied h buckets j → j = i) →
       r = Some {| minBucket := Num (Z.of_nat i);
                   maxBucket := Num (Z.of_nat i) |}) ∧
    (buckets = [] → r = None).
Proof.
  destruct (getBucketRange_core h buckets) as (r & Hrun & Hr).
  exists r. split; [done|].
  assert (∀ lo hi : nat,
       occupied h buckets lo → occupied h buckets hi →
       (∀ i, occupied h buckets i → (lo ≤ i ≤ hi)%nat) →
       r = Some {| minBucket := Num (Z.of_nat lo);
                   maxBucket := Num (Z.of_nat hi) |}) as Hminmax.
  { intros lo hi Hlo Hhi Hb. destruct r as [range|]; [|by destruct (Hr lo)].
    destruct Hr as (l & u & -> & Hl & Hu & Hb').
    pose proof (Hb _ Hl). pose proof (Hb _ Hu).
    pose proof (Hb' _ Hlo). pose proof (Hb' _ Hhi).
    assert (l = lo) as -> by lia. assert (u = hi) as -> by lia. done. }
  split_and!; [|done| |].
  - destruct r as [range|]; [|done]. split; [done|]. intros Hno.
    destruct Hr as (l & _ & _ & Hl & _). by destruct (Hno l).
  - intros i Hi Hone. apply Hminmax; try done.
    intros j Hj. rewrite (Hone j Hj). lia.
  - intros ->. destruct r as [range|]; [|done].
    destruct Hr as (l & _ & _ & (s & Hs & _) & _). done.
Qed.

Lemma getBucketRange_spec_witness :
  let arr := [1%positive; 3%positive; 2%positive] in
  let h := Heap ∅ {[ 1%positive := ∅; 3%positive := ∅; 2%positive := {[ 20%positive ]} ]} in
  (getBucketRange arr h).1 =
  Some {| minBucket := Num 2; maxBucket := Num 2 |}.
Proof.
  intros arr h.
  destruct (getBucketRange_spec h arr) as (r & Hrun & _ & _ & Hsingle & _).
  rewrite Hrun. simpl. apply (Hsingle 2%nat).
  - exists 2%positive. split; [done|]. by vm_compute.
  - intros j (s & Hs & Hne).
    destruct j as [|[|[|j]]]; simpl in Hs; simplify_eq; try done;
      by vm_compute in Hne.
Defined.

(** ** [practice] *)

Lemma practice_add_spec cards r h :
  let h' := (practice_add cards r h).2 in
  hmaps h' = hmaps h ∧
  (∀ x, x ≠ r → set_at h' x = set_at h x) ∧
  set_at h' r = list_to_set cards ∪ set_at h r.
Proof.
  revert h. induction cards as [|c cards IH]; intros h; simpl.
  - split_and!; try done. set_solver.
  - unfold mbind, St_bind, Set_add.
    destruct (IH (Heap (hmaps h) (<[r := {[c]} ∪ set_at h r]> (hsets h))))
      as (Hm & Hother & Hr).
    split_and!.
    + by rewrite Hm.
    + intros x Hx. rewrite Hother, set_at_insert, decide_False by done.
      by destruct h.
    + rewrite Hr, set_at_insert, decide_True by done. set_solver.
Qed.

Lemma practice_loop_spec day r bs : ∀ i h,
  hmaps (practice_loop bs i day r h).2 = hmaps h ∧
  (∀ x, x ≠ r → set_at (practice_loop bs i day r h).2 x = set_at h x) ∧
  (∀ c, c ∈ set_at (practice_loop bs i day r h).2 r ↔
        c ∈ set_at h r ∨
        ∃ j s, bs !! j = Some s ∧ due (i + j) day ∧ c ∈ set_at h s).
Proof.
  induction bs as [|s bs IH]; intros i h; simpl.
  - split_and!; try done. intros c. split; [by left|].
    by intros [?|(j & s & Hs & _)].
  - unfold mbind, St_bind.
    set (step := if decide (i = 0%nat) then _ else _).
    assert (hmaps (step h).2 = hmaps h ∧
            (∀ x, x ≠ r → set_at (step h).2 x = set_at h x) ∧
            (∀ c, c ∈ set_at (step h).2 r ↔
                  c ∈ set_at h r ∨ (due i day ∧ c ∈ set_at h s))) as Hstep.
    { unfold step, due.
      assert (∀ c, c ∈ set_at (practice_add (elements (set_at h s)) r h).2 r ↔
                   c ∈ set_at h r ∨ c ∈ set_at h s) as Hadd.
      { intros c. destruct (practice_add_spec (elements (set_at h s)) r h)
          as (_ & _ & ->). set_solver. }
      destruct (practice_add_spec (elements (set_at h s)) r h) as (Hm & Ho & _).
      repeat case_decide; unfold mbind, St_bind, Set_values; simpl;
        (split_and!; [done|done|]); intros c; rewrite ?Hadd; naive_solver. }
    destruct (step h) as [[] h1]. simpl in Hstep.
    destruct Hstep as (Hm1 & Ho1 & Hr1).
    destruct (IH (S i) h1) as (Hm & Ho & Hr). split_and!.
    + by rewrite Hm.
    + intros x Hx. by rewrite Ho, Ho1.
    + intros c. rewrite Hr, Hr1. split.
      * intros [[?|[Hd Hc]]|(j & s' & Hs' & Hd & Hc)].
        -- by left.
        -- right. exists 0%nat, s. by rewrite Nat.add_0_r.
        -- destruct (decide (s' = r)) as [->|Hne].
           ++ apply Hr1 in Hc as [?|[Hd' Hc]]; [by left|].
              right. exists 0%nat, s. by rewrite Nat.add_0_r.
           ++ rewrite Ho1 in Hc by done. right. exists (S j), s'.
              by rewrite Nat.add_succ_r.
      * intros [?|(j & s' & Hs' & Hd & Hc)]; [by left; left|].
        destruct j as [|j]; simpl in Hs'.
        -- simplify_eq. rewrite Nat.add_0_r in Hd. left. by right.
        -- rewrite Nat.add_succ_r in Hd.
           destruct (decide (s' = r)) as [->|Hne]; [by left; left|].
           right. exists j, s'. by rewrite Ho1.
Qed.

(** C5.  For a day [day >= 0], [practice] returns a new set holding exactly
    the cards of the buckets that are due: bucket 0 always, bucket [i >= 1]
    when [day mod 2^i = 0].  So a card that lies in bucket [i] only is
    returned if and only if [i = 0] or [day mod 2^i = 0], and on day 0 the
    result is the union of all buckets.  The sets of the array are left as
    they were. *)
Theorem practice_due h buckets day :
  0 ≤ day →
  ∃ r h',
    practice buckets day h = (r, h') ∧
    (r ∉ dom (hsets h)) ∧
    (∀ s, s ≠ r → set_at h' s = set_at h s) ∧
    (∀ c, c ∈ set_at h' r ↔
          ∃ i s, buckets !! i = Some s ∧ c ∈ set_at h s ∧
                 (i = 0%nat ∨ day `mod` 2 ^ Z.of_nat i = 0)) ∧
    (∀ i s c,
       buckets !! i = Some s → c ∈ set_at h s →
       (∀ j s', buckets !! j = Some s' → c ∈ set_at h s' → j = i) →
       (c ∈ set_at h' r ↔ i = 0%nat ∨ day `mod` 2 ^ Z.of_nat i = 0)) ∧
    (day = 0 →
     ∀ c, c ∈ set_at h' r ↔ ∃ i s, buckets !! i = Some s ∧ c ∈ set_at h s).
Proof.
  intros Hday. unfold practice, mbind, St_bind, Set_new.
  set (r := fresh (dom (hsets h))).
  set (h1 := Heap (hmaps h) (<[r := ∅]> (hsets h))).
  assert (r ∉ dom (hsets h)) as Hfresh by apply is_fresh.
  assert (∀ x, set_at h1 x = set_at h x) as Hsame.
  { intros x. unfold h1. rewrite set_at_insert. case_decide; [|by destruct h].
    subst x. unfold set_at. by rewrite (not_elem_of_dom_1 _ _ Hfresh). }
  assert (set_at h r = ∅) as Hempty.
  { unfold set_at. by rewrite (not_elem_of_dom_1 _ _ Hfresh). }
  destruct (practice_loop_spec day r buckets 0 h1) as (Hm & Ho & Hr).
  destruct (practice_loop buckets 0 day r h1) as [[] h'].
  simpl in Hm, Ho, Hr. exists r, h'. split; [done|]. split; [done|].
  assert (∀ i : nat, due i day ↔ i = 0%nat ∨ day `mod` 2 ^ Z.of_nat i = 0) as Hdue.
  { intros i. unfold due. rewrite Z.rem_mod_nonneg; [done|done|].
    apply Z.pow_pos_nonneg; lia. }
  assert (∀ c, c ∈ set_at h' r ↔
          ∃ i s, buckets !! i = Some s ∧ c ∈ set_at h s ∧
                 (i = 0%nat ∨ day `mod` 2 ^ Z.of_nat i = 0)) as Hmain.
  { intros c. rewrite Hr, Hsame, Hempty. split.
    - intros [[]%not_elem_of_empty|(j & s & Hs & Hd & Hc)].
      exists j, s. rewrite Hsame in Hc. by rewrite <-Hdue.
    - intros (i & s & Hs & Hc & Hd). right. exists i, s.
      by rewrite Hsame, Hdue. }
  split_and!; [|done| |].
  - intros s Hs. by rewrite Ho, Hsame.
  - intros i s c Hs Hc Honly. rewrite Hmain. split.
    + intros (j & s' & Hs' & Hc' & Hd). by rewrite <-(Honly j s').
    + intros Hd. by exists i, s.
  - intros -> c. rewrite Hmain. split.
    + intros (i & s & ? & ? & _). eauto.
    + intros (i & s & ? & ?). exists i, s. split_and!; [done|done|].
      right. apply Z.mod_0_l. apply Z.pow_nonzero; lia.
Qed.

Lemma practice_due_witness :
  let arr := [1%positive; 3%positive; 2%positive] in
  let h := Heap ∅ {[ 1%positive := {[ 10%positive ]}; 3%positive := ∅;
                     2%positive := {[ 20%positive ]} ]} in
  let r := practice arr 4 h in
  0 ≤ 4 ∧ (20%positive ∈ set_at r.2 r.1 ↔ 2%nat = 0%nat ∨ 4 `mod` 2 ^ Z.of_nat 2 = 0).
Proof.
  intros arr h r. split; [lia|].
  destruct (practice_due h arr 4) as (r' & h' & Hrun & _ & _ & _ & Honly & _);
    [lia|].
  subst r. rewrite Hrun. simpl. apply (Honly 2%nat 2%positive).
  - reflexivity.
  - by vm_compute.
  - intros j s' Hs' Hc.
    destruct j as [|[|[|j]]]; simpl in Hs'; simplify_eq; try done;
      by vm_compute in Hc.
Defined.

(** ** [computeProgress] *)

Lemma computeProgress_loop_spec h bs : ∀ i total dist,
  length dist = i →
  computeProgress_loop bs i total dist h =
  ((total + foldr Z.add 0 (sizes h bs), dist ++ sizes h bs), h).
Proof.
  induction bs as [|s bs IH]; intros i total dist Hlen; simpl.
  - by rewrite Z.add_0_r, app_nil_r.
  - unfold mbind, St_bind, Set_size. subst i. rewrite array_set_end.
    rewrite IH by (rewrite length_app; simpl; lia).
    by rewrite <-app_assoc, Z.add_assoc.
Qed.

(** C7.  [computeProgress] only reads.  [totalCards] is the sum of the bucket
    sizes, [learnedCards] is [totalCards] minus the size of bucket 0 (minus 0
    on the empty array), and [bucketDistribution] lists the bucket sizes in
    order, one per bucket.  On [[{A}, {}, {B}]] the result is
    [totalCards = 2], [learnedCards = 1], [bucketDistribution = [1, 0, 1]]. *)
Theorem computeProgress_spec :
  (∀ (History : Type) (history : History) h buckets,
     ∃ p, computeProgress buckets history h = (p, h) ∧
       totalCards p = foldr Z.add 0 (sizes h buckets) ∧
       learnedCards p = totalCards p - default 0 (sizes h buckets !! 0%nat) ∧
       bucketDistribution p = sizes h buckets ∧
       length (bucketDistribution p) = length buckets) ∧
  (let h := Heap ∅ {[ 1%positive := {[ 10%positive ]}; 2%positive := ∅;
                      3%positive := {[ 20%positive ]} ]} in
   (computeProgress [1%positive; 2%positive; 3%positive] () h).1 =
   {| totalCards := 2; learnedCards := 1; bucketDistribution := [1; 0; 1] |}).
Proof.
  split; [|by vm_compute].
  intros History history h buckets. unfold computeProgress, mbind, St_bind.
  rewrite computeProgress_loop_spec by done.
  assert (length (sizes h buckets) = length buckets) as Hlen
    by (unfold sizes; by rewrite length_fmap).
  destruct buckets as [|s buckets]; (eexists; split; [reflexivity|]);
    cbn [totalCards learnedCards bucketDistribution app];
    split_and!; try done.
  unfold or_zero. simpl. case_decide as Hz; [|done]. by rewrite Hz.
Qed.

(** C9.  The [history] argument of [computeProgress] is never looked at: two
    calls on the same array give the same result whatever the histories. *)
Theorem computeProgress_ignores_history (History1 History2 : Type)
    (history1 : History1) (history2 : History2) (buckets : list loc)
    (h : heap) :
  computeProgress buckets history1 h = computeProgress buckets history2 h.
Proof. reflexivity. Qed.

(** * Further properties *)

(** ** [update]: what it changes and what it keeps *)

(** The [Set] objects after a run of [update], read card by card: the
    practiced card aside, every set has the cards it had. *)
Lemma update_sets_other h m c q c' s :
  c' ≠ c →
  c' ∈ set_at (update m c q h).2 s ↔ c' ∈ set_at h s.
Proof.
  intros Hne. rewrite update_run.
  pose proof (sets_after_delete_other h m c c') as Hother.
  destruct (entries_get _ _) as [s'|]; cbn [snd].
  - rewrite set_at_insert. case_decide; subst.
    + rewrite elem_of_union, Hother by done. set_solver.
    + by apply Hother.
  - rewrite set_at_insert. case_decide; subst; [|by apply Hother].
    assert (fresh (dom (sets_after_delete h m c)) ∉ dom (sets_after_delete h m c))
      as Hfresh by apply is_fresh.
    rewrite <-Hother by done. apply not_elem_of_dom_1 in Hfresh.
    rewrite Hfresh. set_solver.
Qed.

Lemma entries_elem_get k s (es : entries) :
  NoDup es.*1 → (k, s) ∈ es → entries_get k es = Some s.
Proof.
  induction es as [|[k0 s0] es IH]; csimpl; [by intros _ ?%elem_of_nil|].
  intros [Hnotin Hnd]%NoDup_cons [[= -> ->]|Hin]%elem_of_cons.
  - by rewrite decide_True.
  - rewrite decide_False; [by apply IH|]. intros ->. apply Hnotin.
    by apply (list_elem_of_fmap_2 fst _ (k, s)).
Qed.

(** In a sparse bucket map with the card in bucket [b], the scan finds [b]
    and the card moves as [update_core] says. *)
Lemma update_present h m c q b :
  bucket_map h m → one_bucket h m → in_bucket h m b c = true →
  bucket_map (update m c q h).2 (update m c q h).1 ∧
  one_bucket (update m c q h).2 (update m c q h).1 ∧
  (∀ k, in_bucket (update m c q h).2 (update m c q h).1 k c = true ↔
        k = next_bucket q b) ∧
  (∀ k c', c' ≠ c →
           in_bucket (update m c q h).2 (update m c q h).1 k c' =
           in_bucket h m k c').
Proof.
  intros Hbm Hone Hb. destruct (update m c q h) as [m' h'] eqn:Hup. simpl.
  destruct (update_core h m c q m' h' Hbm) as (_ & Hbm' & Hc & Hframe); [|done|].
  { intros k Hk. by rewrite (current_bucket_found _ _ _ _ Hbm Hone Hk). }
  rewrite (current_bucket_found _ _ _ _ Hbm Hone Hb) in Hc.
  split_and!; try done. intros x k1 k2 H1 H2.
  destruct (decide (x = c)) as [->|Hne].
  - apply Hc in H1, H2. congruence.
  - rewrite Hframe in H1, H2 by done. by apply (Hone x).
Qed.

(** The same for a card that no bucket holds: it enters from bucket 0. *)
Lemma update_absent h m c q :
  bucket_map h m → (∀ k, in_bucket h m k c = false) →
  bucket_map (update m c q h).2 (update m c q h).1 ∧
  (∀ k, in_bucket (update m c q h).2 (update m c q h).1 k c = true ↔
        k = next_bucket q 0) ∧
  (∀ k c', c' ≠ c →
           in_bucket (update m c q h).2 (update m c q h).1 k c' =
           in_bucket h m k c').
Proof.
  intros Hbm Habs. destruct (update m c q h) as [m' h'] eqn:Hup. simpl.
  assert (current_bucket h m c = 0) as Hcb.
  { apply current_bucket_absent. intros k s Hin Hc.
    apply (entries_elem_get _ _ _ (bm_keys _ _ Hbm)) in Hin.
    specialize (Habs k). apply not_true_iff_false in Habs. apply Habs.
    apply in_bucket_spec. eauto. }
  destruct (update_core h m c q m' h' Hbm) as (_ & Hbm' & Hc & Hframe); [|done|].
  { intros k Hk. by rewrite Habs in Hk. }
  rewrite Hcb in Hc. by split_and!.
Qed.

(** X1.  [update] returns a [Map] object that did not exist before the call
    and writes to no other [Map] object: every map of the store, the argument
    included, has the entries it had. *)
Theorem update_returns_new_map h m c q :
  ((update m c q h).1 ∉ dom (hmaps h)) ∧
  ∀ x, x ≠ (update m c q h).1 → hmaps (update m c q h).2 !! x = hmaps h !! x.
Proof.
  rewrite update_run. destruct (entries_get _ _); cbn [fst snd hmaps];
    (split; [apply is_fresh|]); intros x Hx; by rewrite lookup_insert_ne.
Qed.

Lemma update_returns_new_map_witness :
  ((update 1%positive 10%positive Easy scenario).1 ∉ dom (hmaps scenario)) ∧
  hmaps (update 1%positive 10%positive Easy scenario).2 !! 1%positive =
  hmaps scenario !! 1%positive.
Proof.
  destruct (update_returns_new_map scenario 1%positive 10%positive Easy)
    as [Hfresh Hframe].
  split; [exact Hfresh|]. apply Hframe. by vm_compute.
Defined.

(** X2.  [update] only ever moves the practiced card: for every other card
    and every [Set] object of the store, the card is in the set after the
    call exactly when it was before. *)
Theorem update_other_cards_untouched h m c q c' s :
  c' ≠ c →
  c' ∈ set_at (update m c q h).2 s ↔ c' ∈ set_at h s.
Proof. apply update_sets_other. Qed.

Lemma update_other_cards_untouched_witness :
  20%positive ∈ set_at (update 1%positive 10%positive Wrong scenario).2 2%positive ↔
  20%positive ∈ set_at scenario 2%positive.
Proof.
  apply (update_other_cards_untouched scenario 1%positive 10%positive Wrong).
  discriminate.
Defined.

(** X3.  A [Hard] answer on a card that some bucket holds changes nothing
    but the identity of the map: the returned map has the entries of the
    original, and every [Set] object has the contents it had. *)
Theorem update_hard_same_buckets h m c b :
  NoDup (entries_at h m).*1 → in_bucket h m b c = true →
  entries_at (update m c Hard h).2 (update m c Hard h).1 = entries_at h m ∧
  ∀ s, set_at (update m c Hard h).2 s = set_at h s.
Proof.
  intros Hkeys (s0 & Hs0 & Hc0)%in_bucket_spec. rewrite update_run.
  unfold sets_after_delete, current_bucket, next_bucket.
  destruct (update_find (entries_at h m) c h).1 as [b'|] eqn:Hfind.
  2:{ by destruct (update_find_None _ _ _ _ _ Hfind Hs0). }
  destruct (update_find_Some _ _ _ _ Hkeys Hfind) as (s & Hs & Hc).
  simpl. rewrite Hs. cbn [fst snd].
  split; [by rewrite entries_at_insert, decide_True|].
  intros x. rewrite set_at_insert, lookup_insert_eq. simpl.
  case_decide; subst.
  - apply set_eq. intros y. destruct (decide (y = c)); set_solver.
  - by rewrite set_at_insert, decide_False by done; destruct h.
Qed.

Lemma update_hard_same_buckets_witness :
  entries_at (update 1%positive 20%positive Hard scenario).2
             (update 1%positive 20%positive Hard scenario).1 =
  entries_at scenario 1%positive ∧
  ∀ s, set_at (update 1%positive 20%positive Hard scenario).2 s =
       set_at scenario s.
Proof.
  apply (update_hard_same_buckets scenario 1%positive 20%positive 2).
  - apply (bool_decide_unpack _). vm_compute. exact I.
  - reflexivity.
Defined.

(** X4.  [update] never removes a bucket: the returned map starts with the
    entries of the original, in their order, followed by at most one new
    entry, whose set is a [Set] object that did not exist before. *)
Theorem update_keeps_all_buckets h m c q :
  ∃ extra,
    entries_at (update m c q h).2 (update m c q h).1 = entries_at h m ++ extra ∧
    (length extra ≤ 1)%nat ∧
    Forall (λ e, e.2 ∉ dom (hsets h)) extra.
Proof.
  rewrite update_run.
  destruct (entries_get _ _) as [s'|]; cbn [fst snd];
    rewrite entries_at_insert, decide_True by done.
  - exists []. rewrite app_nil_r. split_and!; [done|simpl; lia|constructor].
  - eexists [_]. split; [done|]. split; [simpl; lia|].
    constructor; [|constructor]. simpl. intros Hin.
    apply (is_fresh (dom (sets_after_delete h m c))).
    unfold sets_after_delete in *.
    destruct (entries_get (current_bucket h m c) (entries_at h m)); [|done].
    by apply dom_insert_subseteq.
Qed.

(** X5.  In a sparse bucket map [update] neither loses nor invents a card:
    the cards of the returned map are the cards of the original and the
    practiced card. *)
Theorem update_keeps_cards h m c q x :
  bucket_map h m → one_bucket h m →
  (∃ k, in_bucket (update m c q h).2 (update m c q h).1 k x = true) ↔
  x = c ∨ ∃ k, in_bucket h m k x = true.
Proof.
  intros Hbm Hone.
  assert ((∀ k, in_bucket (update m c q h).2 (update m c q h).1 k c = true ↔
                k = next_bucket q (current_bucket h m c)) ∧
          (∀ k c', c' ≠ c →
                   in_bucket (update m c q h).2 (update m c q h).1 k c' =
                   in_bucket h m k c')) as [Hc Hframe].
  { destruct (update m c q h) as [m' h'] eqn:Hup. simpl.
    destruct (update_core h m c q m' h' Hbm) as (_ & _ & Hc & Hframe); [|done|done].
    intros k Hk. by rewrite (current_bucket_found _ _ _ _ Hbm Hone Hk). }
  destruct (decide (x = c)) as [->|Hne].
  - split; [by left|]. intros _. eexists. by apply Hc.
  - split.
    + intros [k Hk]. right. exists k. by rewrite <-Hframe.
    + intros [?|[k Hk]]; [done|]. exists k. by rewrite Hframe.
Qed.

Lemma update_keeps_cards_witness :
  (∃ k, in_bucket (update 1%positive 10%positive Easy scenario).2
                  (update 1%positive 10%positive Easy scenario).1 k 20%positive = true) ↔
  20%positive = 10%positive ∨ ∃ k, in_bucket scenario 1%positive k 20%positive = true.
Proof.
  apply (update_keeps_cards scenario 1%positive 10%positive Easy 20%positive).
  - exact scenario_bucket_map.
  - exact scenario_one_bucket.
Defined.

(** X6.  Transitions compose: in a sparse bucket map with the card in bucket
    [b], where [b] and [b + 1] are safe integers, an answer [q1] followed by
    an answer [q2] on the returned map leaves the card in exactly the bucket
    that [q2] leads to from the bucket that [q1] leads to from [b]; an [Easy]
    then a [Hard] gives [b + 1], anything then a [Wrong] gives 0. *)
Theorem update_twice h m c q1 q2 b :
  bucket_map h m → one_bucket h m → in_bucket h m b c = true →
  safe_integer b → safe_integer (b + 1) →
  let r1 := update m c q1 h in
  let r2 := update r1.1 c q2 r1.2 in
  ∀ k, in_bucket r2.2 r2.1 k c = true ↔
       k = match q2 with
           | Easy => match q1 with Easy => b + 1 | Hard => b | Wrong => 0 end + 1
           | Hard => match q1 with Easy => b + 1 | Hard => b | Wrong => 0 end
           | Wrong => 0
           end.
Proof.
  intros Hbm Hone Hb _ _ r1 r2.
  destruct (update_present h m c q1 b Hbm Hone Hb) as (Hbm1 & Hone1 & Hc1 & _).
  fold r1 in Hbm1, Hone1, Hc1.
  assert (in_bucket r1.2 r1.1 (next_bucket q1 b) c = true) as Hb1 by by apply Hc1.
  destruct (update_present r1.2 r1.1 c q2 _ Hbm1 Hone1 Hb1) as (_ & _ & Hc2 & _).
  fold r2 in Hc2. intros k. rewrite Hc2. by destruct q1, q2.
Qed.

Lemma update_twice_witness :
  let r1 := update 1%positive 20%positive Easy scenario in
  let r2 := update r1.1 20%positive Hard r1.2 in
  in_bucket r2.2 r2.1 3 20%positive = true ↔ 3 = 2 + 1.
Proof.
  apply (update_twice scenario 1%positive 20%positive Easy Hard 2).
  - exact scenario_bucket_map.
  - exact scenario_one_bucket.
  - reflexivity.
  - unfold safe_integer. lia.
  - unfold safe_integer. lia.
Defined.

(** X7.  A card that no bucket of a sparse bucket map holds is inserted: in
    the returned map it is in exactly bucket 1 after [Easy] and exactly
    bucket 0 after [Hard] or [Wrong], and every other card is in the buckets
    it was in. *)
Theorem update_inserts_unknown_card h m c q :
  bucket_map h m → (∀ k, in_bucket h m k c = false) →
  (∀ k, in_bucket (update m c q h).2 (update m c q h).1 k c = true ↔
        k = match q with Easy => 1 | Hard | Wrong => 0 end) ∧
  (∀ k c', c' ≠ c →
           in_bucket (update m c q h).2 (update m c q h).1 k c' =
           in_bucket h m k c').
Proof.
  intros Hbm Habs. destruct (update_absent h m c q Hbm Habs) as (_ & Hc & Hframe).
  split; [|done]. intros k. rewrite Hc. by destruct q.
Qed.

Lemma update_inserts_unknown_card_witness :
  (∀ k, in_bucket (update 1%positive 30%positive Easy scenario).2
                  (update 1%positive 30%positive Easy scenario).1 k 30%positive = true ↔
        k = 1) ∧
  (∀ k c', c' ≠ 30%positive →
           in_bucket (update 1%positive 30%positive Easy scenario).2
                     (update 1%positive 30%positive Easy scenario).1 k c' =
           in_bucket scenario 1%positive k c').
Proof.
  apply (update_inserts_unknown_card scenario 1%positive 30%positive Easy).
  - exact scenario_bucket_map.
  - intros k. unfold in_bucket.
    destruct (entries_get k (entries_at scenario 1%positive)) as [s|] eqn:Hs;
      [|done].
    apply entries_get_elem in Hs. vm_compute in Hs.
    apply elem_of_cons in Hs as [[= -> ->]|Hs]; [by vm_compute|].
    apply elem_of_cons in Hs as [[= -> ->]|Hs]; [by vm_compute|].
    by apply elem_of_nil in Hs.
Defined.

(** ** [toBucketSets] on any map *)

(** A run of [toBucketSets], for keys of any sign. *)
Lemma toBucketSets_run h m :
  ∃ arr h',
    toBucketSets m h = (arr, h') ∧
    length arr = Z.to_nat (toBucketSets_max (entries_at h m).*1 + 1) ∧
    hmaps h' = hmaps h ∧
    (∀ s, set_at h' s = set_at h s) ∧
    (∀ i, (i < length arr)%nat →
       match entries_get (Z.of_nat i) (entries_at h m) with
       | Some s => arr !! i = Some s
       | None => ∃ s, arr !! i = Some s ∧ set_at h' s = ∅
       end).
Proof.
  unfold toBucketSets, mbind, St_bind, Map_keys.
  destruct (toBucketSets_loop_spec m
              (Z.to_nat (toBucketSets_max (entries_at h m).*1 + 1)) 0 [] h eq_refl)
    as (ext & h' & Hrun & Hl & Hm & Hd & Hs & Hslots).
  exists ext, h'. rewrite Hrun. simpl. split_and!; try done.
  intros i Hi. specialize (Hslots i ltac:(lia)). simpl in Hslots.
  destruct (entries_get _ _); [done|].
  destruct Hslots as (s & Harr & _ & Hempty). exists s. split; [done|].
  unfold set_at. by rewrite Hempty.
Qed.

(** Slot [i] of the array holds the cards of bucket [i] of the map. *)
Lemma toBucketSets_view h m i c :
  (∃ s, (toBucketSets m h).1 !! i = Some s ∧
        c ∈ set_at (toBucketSets m h).2 s) ↔
  in_bucket h m (Z.of_nat i) c = true.
Proof.
  destruct (toBucketSets_run h m) as (arr & h' & -> & Hlen & _ & Hsame & Hslots).
  simpl. rewrite in_bucket_spec.
  destruct (toBucketSets_max_spec (entries_at h m).*1) as (Hmax0 & Hub & _).
  split.
  - intros (s & Hs & Hc). pose proof (lookup_lt_Some _ _ _ Hs) as Hi.
    specialize (Hslots i Hi).
    destruct (entries_get (Z.of_nat i) (entries_at h m)) as [s0|].
    + simplify_eq. eexists. split; [done|]. by rewrite <-Hsame.
    + destruct Hslots as (s0 & Hs0 & Hempty). simplify_eq. set_solver.
  - intros (s & Hs & Hc).
    assert (i < length arr)%nat as Hi.
    { apply entries_get_elem in Hs.
      apply (list_elem_of_fmap_2 fst) in Hs. apply Hub in Hs. simpl in Hs. lia. }
    specialize (Hslots i Hi). rewrite Hs in Hslots.
    exists s. by rewrite Hsame.
Qed.

(** X8.  The array returned by [toBucketSets] is never empty.  Every key of
    the map is below its length, and it has no slot to spare: either it has
    the single slot 0, or its last index is a key of the map. *)
Theorem toBucketSets_length h m :
  let arr := (toBucketSets m h).1 in
  (1 ≤ length arr)%nat ∧
  (∀ k, k ∈ (entries_at h m).*1 → k < Z.of_nat (length arr)) ∧
  (length arr = 1%nat ∨ Z.of_nat (length arr) - 1 ∈ (entries_at h m).*1).
Proof.
  destruct (toBucketSets_run h m) as (arr & h' & -> & Hlen & _). simpl.
  destruct (toBucketSets_max_spec (entries_at h m).*1) as (Hmax0 & Hub & Hor).
  simpl in *. split_and!.
  - lia.
  - intros k Hk. specialize (Hub k Hk). lia.
  - destruct Hor as [H0|Hin]; [left; lia|right].
    by replace (Z.of_nat (length arr) - 1)
      with (toBucketSets_max (entries_at h m).*1) by lia.
Qed.

Lemma toBucketSets_length_witness :
  let h := Heap {[ 1%positive := [(-3, 1%positive)] ]} {[ 1%positive := {[ 7%positive ]} ]} in
  -3 < Z.of_nat (length (toBucketSets 1%positive h).1).
Proof.
  intros h. destruct (toBucketSets_length h 1%positive) as (_ & Hkeys & _).
  apply Hkeys. vm_compute. left.
Defined.

(** X9.  [toBucketSets] keeps the contents of the buckets: a card is in the
    set at index [i] of the array exactly when the map reports it in bucket
    [i]. *)
Theorem toBucketSets_same_cards h m (i : nat) c :
  (∃ s, (toBucketSets m h).1 !! i = Some s ∧
        c ∈ set_at (toBucketSets m h).2 s) ↔
  in_bucket h m (Z.of_nat i) c = true.
Proof. apply toBucketSets_view. Qed.

(** X10.  From a map with every card in at most one bucket, [toBucketSets]
    gives an array with every card in at most one slot. *)
Theorem toBucketSets_one_slot_per_card h m i j s s' c :
  one_bucket h m →
  (toBucketSets m h).1 !! i = Some s → (toBucketSets m h).1 !! j = Some s' →
  c ∈ set_at (toBucketSets m h).2 s → c ∈ set_at (toBucketSets m h).2 s' →
  i = j.
Proof.
  intros Hone Hi Hj Hc Hc'.
  assert (in_bucket h m (Z.of_nat i) c = true) as H1
    by (apply toBucketSets_view; eauto).
  assert (in_bucket h m (Z.of_nat j) c = true) as H2
    by (apply toBucketSets_view; eauto).
  specialize (Hone c _ _ H1 H2). lia.
Qed.

Lemma toBucketSets_one_slot_per_card_witness :
  (toBucketSets 1%positive scenario).1 !! 2%nat = Some 2%positive ∧ 2%nat = 2%nat.
Proof.
  split; [reflexivity|].
  apply (toBucketSets_one_slot_per_card scenario 1%positive 2%nat 2%nat
           2%positive 2%positive 20%positive).
  - exact scenario_one_bucket.
  - reflexivity.
  - reflexivity.
  - by vm_compute.
  - by vm_compute.
Defined.

(** ** [practice] on any day *)

(** A run of [practice], with the test of the code. *)
Lemma practice_run h buckets day :
  ((practice buckets day h).1 ∉ dom (hsets h)) ∧
  hmaps (practice buckets day h).2 = hmaps h ∧
  (∀ s, s ≠ (practice buckets day h).1 →
        set_at (practice buckets day h).2 s = set_at h s) ∧
  (∀ c, c ∈ set_at (practice buckets day h).2 (practice buckets day h).1 ↔
        ∃ i s, buckets !! i = Some s ∧ due i day ∧ c ∈ set_at h s).
Proof.
  unfold practice, mbind, St_bind, Set_new.
  set (r := fresh (dom (hsets h))).
  set (h1 := Heap (hmaps h) (<[r := ∅]> (hsets h))).
  assert (r ∉ dom (hsets h)) as Hfresh by apply is_fresh.
  assert (set_at h r = ∅) as Hempty.
  { unfold set_at. by rewrite (not_elem_of_dom_1 _ _ Hfresh). }
  assert (∀ x, set_at h1 x = set_at h x) as Hsame.
  { intros x. unfold h1. rewrite set_at_insert. case_decide; [|by destruct h].
    by subst x. }
  destruct (practice_loop_spec day r buckets 0 h1) as (Hm & Ho & Hr).
  destruct (practice_loop buckets 0 day r h1) as [[] h'].
  simpl in *. split_and!; try done.
  - intros s Hs. by rewrite Ho, Hsame.
  - intros c. rewrite Hr, Hsame, Hempty. setoid_rewrite Hsame. set_solver.
Qed.

(** The test [day % (2 ** i) === 0] asks whether [2^i] divides [day]. *)
Lemma due_divide (i : nat) day : due i day ↔ i = 0%nat ∨ (2 ^ Z.of_nat i | day).
Proof.
  unfold due. rewrite Z.rem_divide; [done|]. apply Z.pow_nonzero; lia.
Qed.

Lemma due_mod (i : nat) day :
  0 ≤ day → due i day ↔ i = 0%nat ∨ day `mod` 2 ^ Z.of_nat i = 0.
Proof.
  intros Hday. unfold due. rewrite Z.rem_mod_nonneg; [done|done|].
  apply Z.pow_pos_nonneg; lia.
Qed.

Lemma pow2_divide (i j : nat) : (i ≤ j)%nat → (2 ^ Z.of_nat i | 2 ^ Z.of_nat j).
Proof.
  intros Hij. exists (2 ^ (Z.of_nat j - Z.of_nat i)).
  rewrite <-Z.pow_add_r by lia. f_equal. lia.
Qed.

(** X11.  Whatever the day, [practice] returns every card of bucket 0 and
    only cards of the array. *)
Theorem practice_between h buckets day c :
  ((∃ s, buckets !! 0%nat = Some s ∧ c ∈ set_at h s) →
   c ∈ set_at (practice buckets day h).2 (practice buckets day h).1) ∧
  (c ∈ set_at (practice buckets day h).2 (practice buckets day h).1 →
   ∃ i s, buckets !! i = Some s ∧ c ∈ set_at h s).
Proof.
  destruct (practice_run h buckets day) as (_ & _ & _ & Hr). rewrite Hr. split.
  - intros (s & Hs & Hc). exists 0%nat, s. split_and!; try done. by left.
  - intros (i & s & Hs & _ & Hc). eauto.
Qed.

Lemma practice_between_witness :
  let h := Heap ∅ {[ 1%positive := {[ 10%positive ]}; 2%positive := {[ 20%positive ]} ]} in
  10%positive ∈ set_at (practice [1%positive; 2%positive] 3 h).2
                       (practice [1%positive; 2%positive] 3 h).1.
Proof.
  intros h.
  apply (proj1 (practice_between h [1%positive; 2%positive] 3 10%positive)).
  exists 1%positive. split; [reflexivity | by vm_compute].
Defined.

(** X12.  On an odd day [practice] returns the cards of bucket 0 and no
    other card. *)
Theorem practice_odd_day h buckets day c :
  Z.odd day = true →
  c ∈ set_at (practice buckets day h).2 (practice buckets day h).1 ↔
  ∃ s, buckets !! 0%nat = Some s ∧ c ∈ set_at h s.
Proof.
  intros Hodd. destruct (practice_run h buckets day) as (_ & _ & _ & Hr).
  rewrite Hr. split.
  - intros (i & s & Hs & Hd & Hc). apply due_divide in Hd as [->|Hd]; [eauto|].
    destruct i as [|i]; [eauto|]. exfalso.
    assert (2 | day) as Heven.
    { eapply Z.divide_trans; [|exact Hd].
      apply (pow2_divide 1 (S i)). lia. }
    destruct Heven as [z ->]. rewrite Z.odd_mul in Hodd. simpl in Hodd.
    by rewrite andb_false_r in Hodd.
  - intros (s & Hs & Hc). exists 0%nat, s. split_and!; try done. by left.
Qed.

Lemma practice_odd_day_witness :
  let h := Heap ∅ {[ 1%positive := {[ 10%positive ]}; 2%positive := {[ 20%positive ]} ]} in
  20%positive ∈ set_at (practice [1%positive; 2%positive] 3 h).2
                       (practice [1%positive; 2%positive] 3 h).1 ↔
  ∃ s, [1%positive; 2%positive] !! 0%nat = Some s ∧ 20%positive ∈ set_at h s.
Proof.
  intros h. apply (practice_odd_day h [1%positive; 2%positive] 3 20%positive).
  reflexivity.
Defined.

(** X13.  The sign of the day does not matter: [practice] returns the same
    cards on day [-day] as on day [day]. *)
Theorem practice_negative_day h buckets day c :
  c ∈ set_at (practice buckets (- day) h).2 (practice buckets (- day) h).1 ↔
  c ∈ set_at (practice buckets day h).2 (practice buckets day h).1.
Proof.
  destruct (practice_run h buckets day) as (_ & _ & _ & ->).
  destruct (practice_run h buckets (- day)) as (_ & _ & _ & ->).
  do 2 (apply exist_proper; intros ?). rewrite !due_divide.
  by rewrite Z.divide_opp_r.
Qed.

(** X14.  The schedule of an array of [n] buckets repeats every
    [2^(n-1)] days: [practice] returns the same cards on day
    [day + 2^(n-1)] as on day [day]. *)
Theorem practice_period h buckets day c :
  let period := 2 ^ Z.of_nat (length buckets - 1) in
  c ∈ set_at (practice buckets (day + period) h).2
              (practice buckets (day + period) h).1 ↔
  c ∈ set_at (practice buckets day h).2 (practice buckets day h).1.
Proof.
  intros period.
  destruct (practice_run h buckets day) as (_ & _ & _ & ->).
  destruct (practice_run h buckets (day + period)) as (_ & _ & _ & ->).
  apply exist_proper; intros i. apply exist_proper; intros s.
  rewrite !due_divide. split; intros (Hs & Hd & Hc); split_and!; try done;
    (destruct Hd as [?|Hd]; [by left|right]);
    pose proof (lookup_lt_Some _ _ _ Hs) as Hi;
    assert (2 ^ Z.of_nat i | period) as Hp
      by (apply pow2_divide; lia).
  - replace day with (day + period - period) by lia. by apply Z.divide_sub_r.
  - by apply Z.divide_add_r.
Qed.

(** X15.  Lower buckets are practiced at least as often as higher ones: on a
    day when bucket [j] passes the test, every card of every bucket
    [i <= j] is returned. *)
Theorem practice_lower_buckets h buckets day (i j : nat) s c :
  (i ≤ j)%nat →
  Z.rem day (2 ^ Z.of_nat j) = 0 →
  buckets !! i = Some s → c ∈ set_at h s →
  c ∈ set_at (practice buckets day h).2 (practice buckets day h).1.
Proof.
  intros Hij Hrem Hs Hc.
  destruct (practice_run h buckets day) as (_ & _ & _ & ->).
  exists i, s. split_and!; try done. apply due_divide. right.
  eapply Z.divide_trans; [by apply pow2_divide|].
  apply Z.rem_divide; [|done]. apply Z.pow_nonzero; lia.
Qed.

Lemma practice_lower_buckets_witness :
  let h := Heap ∅ {[ 1%positive := ∅; 2%positive := {[ 20%positive ]};
                     3%positive := {[ 30%positive ]} ]} in
  20%positive ∈ set_at (practice [1%positive; 2%positive; 3%positive] 8 h).2
                       (practice [1%positive; 2%positive; 3%positive] 8 h).1.
Proof.
  intros h.
  apply (practice_lower_buckets h [1%positive; 2%positive; 3%positive] 8
           1%nat 2%nat 2%positive 20%positive).
  - lia.
  - reflexivity.
  - reflexivity.
  - by vm_compute.
Defined.

(** ** The functions together *)

Lemma occupied_card h buckets i :
  occupied h buckets i ↔ ∃ s c, buckets !! i = Some s ∧ c ∈ set_at h s.
Proof.
  unfold occupied. split.
  - intros (s & Hs & [c Hc]%set_choose_L). eauto.
  - intros (s & c & Hs & Hc). exists s. split; [done|]. set_solver.
Qed.

(** An index of the array is occupied when the map has a card in that
    bucket. *)
Lemma toBucketSets_occupied h m i :
  occupied (toBucketSets m h).2 (toBucketSets m h).1 i ↔
  ∃ c, in_bucket h m (Z.of_nat i) c = true.
Proof.
  rewrite occupied_card. setoid_rewrite <-toBucketSets_view. naive_solver.
Qed.

(** [practice] on the array of a map, read on the map. *)
Lemma practice_of_map h m day c :
  let t := toBucketSets m h in
  let p := practice t.1 day t.2 in
  c ∈ set_at p.2 p.1 ↔ ∃ i : nat, due i day ∧ in_bucket h m (Z.of_nat i) c = true.
Proof.
  intros t p. subst p.
  destruct (practice_run t.2 t.1 day) as (_ & _ & _ & ->).
  subst t. setoid_rewrite <-toBucketSets_view. naive_solver.
Qed.

(** Whatever the map, the card ends in the bucket [update] computes for it. *)
Lemma update_lands h m c q :
  in_bucket (update m c q h).2 (update m c q h).1
            (next_bucket q (current_bucket h m c)) c = true.
Proof.
  rewrite update_run.
  destruct (entries_get _ _) as [s'|] eqn:Hnb; cbn [fst snd];
    apply in_bucket_spec; rewrite entries_at_insert, decide_True by done.
  - exists s'. split; [done|]. rewrite set_at_insert, decide_True by done.
    set_solver.
  - eexists. rewrite entries_get_app, Hnb. simpl. rewrite decide_True by done.
    split; [done|]. rewrite set_at_insert, decide_True by done. set_solver.
Qed.

(** X16.  [getBucketRange] after [toBucketSets] reads the range off the map:
    it is [undefined] exactly when no bucket with a key [>= 0] has a card,
    and otherwise [minBucket] and [maxBucket] are buckets that have a card
    and enclose every bucket with a key [>= 0] that has one. *)
Theorem getBucketRange_of_map h m :
  let t := toBucketSets m h in
  let r := (getBucketRange t.1 t.2).1 in
  (r = None ↔ ∀ k c, 0 ≤ k → in_bucket h m k c = false) ∧
  (∀ range, r = Some range →
     ∃ lo hi : nat,
       range = {| minBucket := Num (Z.of_nat lo); maxBucket := Num (Z.of_nat hi) |} ∧
       (∃ c, in_bucket h m (Z.of_nat lo) c = true) ∧
       (∃ c, in_bucket h m (Z.of_nat hi) c = true) ∧
       ∀ k c, 0 ≤ k → in_bucket h m k c = true →
              Z.of_nat lo ≤ k ≤ Z.of_nat hi).
Proof.
  intros t r. subst r.
  destruct (getBucketRange_core t.2 t.1) as (r & -> & Hr). simpl.
  pose proof (toBucketSets_occupied h m) as Hocc. fold t in Hocc.
  split.
  - destruct r as [range|].
    + split; [done|]. intros Hno. destruct Hr as (lo & _ & _ & Hlo & _).
      apply Hocc in Hlo as [c Hc]. rewrite Hno in Hc; [done|lia].
    + split; [|done]. intros _ k c Hk. apply not_true_iff_false. intros Hin.
      apply (Hr (Z.to_nat k)), Hocc. exists c. by rewrite Z2Nat.id.
  - intros range ->. destruct Hr as (lo & hi & -> & Hlo & Hhi & Hb).
    exists lo, hi. split_and!; [done|by apply Hocc|by apply Hocc|].
    intros k c Hk Hin. specialize (Hb (Z.to_nat k)).
    assert (occupied t.2 t.1 (Z.to_nat k)) as Hok.
    { apply Hocc. exists c. by rewrite Z2Nat.id. }
    specialize (Hb Hok). lia.
Qed.

Lemma getBucketRange_of_map_witness :
  (getBucketRange (toBucketSets 1%positive scenario).1
                  (toBucketSets 1%positive scenario).2).1 =
  Some {| minBucket := Num 0; maxBucket := Num 2 |} ∧
  0 ≤ 2 ≤ 2.
Proof.
  split; [reflexivity|].
  destruct (getBucketRange_of_map scenario 1%positive) as [_ Hsome].
  destruct (Hsome _ eq_refl) as (lo & hi & Heq & _ & _ & Hb).
  injection Heq as Hlo Hhi.
  specialize (Hb 2 20%positive ltac:(lia) eq_refl). lia.
Defined.

(** X17.  [practice] after [toBucketSets] schedules the map: on a day
    [day >= 0] it returns exactly the cards that the map reports in bucket 0
    or in a bucket [k >= 1] with [day mod 2^k = 0]. *)
Theorem practice_of_bucket_map h m day c :
  0 ≤ day →
  let t := toBucketSets m h in
  let p := practice t.1 day t.2 in
  c ∈ set_at p.2 p.1 ↔
  ∃ k, 0 ≤ k ∧ in_bucket h m k c = true ∧ (k = 0 ∨ day `mod` 2 ^ k = 0).
Proof.
  intros Hday t p. subst t p. rewrite practice_of_map. split.
  - intros (i & Hd & Hin). exists (Z.of_nat i). split; [lia|]. split; [done|].
    apply due_mod in Hd as [->|Hd]; [by left|by right|done].
  - intros (k & Hk & Hin & Hd). exists (Z.to_nat k). rewrite Z2Nat.id by done.
    split; [|done]. apply due_mod; [done|]. rewrite Z2Nat.id by done.
    destruct Hd as [->|Hd]; [by left|by right].
Qed.

Lemma practice_of_bucket_map_witness :
  let t := toBucketSets 1%positive scenario in
  let p := practice t.1 4 t.2 in
  20%positive ∈ set_at p.2 p.1 ↔
  ∃ k, 0 ≤ k ∧ in_bucket scenario 1%positive k 20%positive = true ∧
       (k = 0 ∨ 4 `mod` 2 ^ k = 0).
Proof.
  apply (practice_of_bucket_map scenario 1%positive 4 20%positive). lia.
Defined.

(** X18.  After a [Wrong] answer the card is practiced every day: whatever
    the map and the day, [practice] on the array of the returned map returns
    the card. *)
Theorem wrong_card_is_always_practiced h m c day :
  let u := update m c Wrong h in
  let t := toBucketSets u.1 u.2 in
  let p := practice t.1 day t.2 in
  c ∈ set_at p.2 p.1.
Proof.
  intros u t p. subst t p. apply practice_of_map. exists 0%nat.
  split; [by left|]. subst u. apply (update_lands h m c Wrong).
Qed.

(** X19.  The schedule after an answer: in a sparse bucket map with the card
    in bucket [b >= 0], after [update] the card is practiced on a day
    [day >= 0] exactly when its new bucket [n] ([b + 1] after [Easy], [b]
    after [Hard], 0 after [Wrong]) is 0 or [day mod 2^n = 0]. *)
Theorem practice_after_update h m c q b day :
  bucket_map h m → one_bucket h m → in_bucket h m b c = true →
  0 ≤ b → 0 ≤ day →
  let u := update m c q h in
  let t := toBucketSets u.1 u.2 in
  let p := practice t.1 day t.2 in
  let n := match q with Easy => b + 1 | Hard => b | Wrong => 0 end in
  c ∈ set_at p.2 p.1 ↔ n = 0 ∨ day `mod` 2 ^ n = 0.
Proof.
  intros Hbm Hone Hb Hb0 Hday u t p n. subst t p. rewrite practice_of_map.
  destruct (update_present h m c q b Hbm Hone Hb) as (_ & _ & Hc & _).
  fold u in Hc. assert (next_bucket q b = n) as Hn by by destruct q.
  rewrite Hn in Hc. assert (0 ≤ n) as Hn0 by (subst n; destruct q; lia).
  split.
  - intros (i & Hd & Hin). apply Hc in Hin. rewrite <-Hin.
    apply due_mod in Hd as [->|Hd]; [by left|by right|done].
  - intros Hd. exists (Z.to_nat n). rewrite Z2Nat.id by done.
    split; [|by apply Hc]. apply due_mod; [done|]. rewrite Z2Nat.id by done.
    destruct Hd as [Hd|Hd]; [left; lia|by right].
Qed.

Lemma practice_after_update_witness :
  let u := update 1%positive 10%positive Easy scenario in
  let t := toBucketSets u.1 u.2 in
  let p := practice t.1 6 t.2 in
  10%positive ∈ set_at p.2 p.1 ↔ 0 + 1 = 0 ∨ 6 `mod` 2 ^ (0 + 1) = 0.
Proof.
  apply (practice_after_update scenario 1%positive 10%positive Easy 0 6).
  - exact scenario_bucket_map.
  - exact scenario_one_bucket.
  - reflexivity.
  - lia.
  - lia.
Defined.

(** ** [getBucketRange] and [computeProgress] on one array *)

(** X20.  A range returned by [getBucketRange] is a pair of indices of the
    array with [minBucket <= maxBucket]. *)
Theorem getBucketRange_bounds h buckets range :
  (getBucketRange buckets h).1 = Some range →
  ∃ lo hi : nat,
    range = {| minBucket := Num (Z.of_nat lo); maxBucket := Num (Z.of_nat hi) |} ∧
    (lo ≤ hi)%nat ∧ (hi < length buckets)%nat.
Proof.
  destruct (getBucketRange_core h buckets) as (r & -> & Hr). simpl.
  intros ->. destruct Hr as (lo & hi & -> & Hlo & Hhi & Hb).
  exists lo, hi. split_and!; [done| |by eapply occupied_lt].
  by apply (Hb lo).
Qed.

Lemma getBucketRange_bounds_witness :
  let arr := [1%positive; 3%positive; 2%positive] in
  let h := Heap ∅ {[ 1%positive := {[ 10%positive ]}; 3%positive := ∅;
                     2%positive := {[ 20%positive ]} ]} in
  ∃ lo hi : nat,
    {| minBucket := Num 0; maxBucket := Num 2 |} =
    {| minBucket := Num (Z.of_nat lo); maxBucket := Num (Z.of_nat hi) |} ∧
    (lo ≤ hi)%nat ∧ (hi < length arr)%nat.
Proof.
  intros arr h. apply (getBucketRange_bounds h arr). reflexivity.
Defined.

(** A run of [computeProgress]. *)
Lemma computeProgress_run {History : Type} (history : History) h buckets :
  computeProgress buckets history h =
  ({| totalCards := foldr Z.add 0 (sizes h buckets);
      learnedCards := foldr Z.add 0 (sizes h buckets) -
                      default 0 (sizes h buckets !! 0%nat);
      bucketDistribution := sizes h buckets |}, h).
Proof.
  unfold computeProgress, mbind, St_bind.
  rewrite computeProgress_loop_spec by done.
  destruct buckets as [|s buckets]; [done|]. simpl.
  unfold or_zero. case_decide as Hz; [|done]. by rewrite Hz.
Qed.

Lemma sizes_nonneg h buckets : Forall (λ n, 0 ≤ n) (sizes h buckets).
Proof. unfold sizes. apply Forall_fmap, Forall_true. intros s. simpl. lia. Qed.

Lemma sum_nonneg (l : list Z) : Forall (λ n, 0 ≤ n) l → 0 ≤ foldr Z.add 0 l.
Proof. induction 1; simpl; lia. Qed.

Lemma sum_zero (l : list Z) :
  Forall (λ n, 0 ≤ n) l → foldr Z.add 0 l = 0 ↔ Forall (λ n, n = 0) l.
Proof.
  induction 1 as [|n l Hn Hl IH]; simpl.
  - split; [constructor|done].
  - pose proof (sum_nonneg l Hl). rewrite Forall_cons, <-IH. lia.
Qed.

Lemma sizes_zero h buckets :
  Forall (λ n, n = 0) (sizes h buckets) ↔ ∀ i, ¬ occupied h buckets i.
Proof.
  unfold sizes, occupied. rewrite Forall_fmap, Forall_lookup. split.
  - intros Hall i (s & Hs & Hne). specialize (Hall i s Hs). simpl in Hall.
    apply Hne. apply leibniz_equiv, size_empty_iff. lia.
  - intros Hno i s Hs. simpl. destruct (decide (set_at h s = ∅)) as [->|Hne].
    + by rewrite size_empty.
    + by destruct (Hno i (ex_intro _ s (conj Hs Hne))).
Qed.

(** X21.  The three statistics of [computeProgress] fit together:
    [totalCards] is the sum of [bucketDistribution], [learnedCards] is the
    sum of [bucketDistribution] without its first entry, no entry is
    negative, and [0 <= learnedCards <= totalCards]. *)
Theorem computeProgress_consistent {History : Type} (history : History) h buckets :
  let p := (computeProgress buckets history h).1 in
  totalCards p = foldr Z.add 0 (bucketDistribution p) ∧
  learnedCards p = foldr Z.add 0 (drop 1 (bucketDistribution p)) ∧
  Forall (λ n, 0 ≤ n) (bucketDistribution p) ∧
  0 ≤ learnedCards p ≤ totalCards p.
Proof.
  rewrite computeProgress_run. simpl.
  pose proof (sizes_nonneg h buckets) as Hnn.
  assert (foldr Z.add 0 (sizes h buckets) - default 0 (sizes h buckets !! 0%nat) =
          foldr Z.add 0 (drop 1 (sizes h buckets))) as Hlearned.
  { destruct (sizes h buckets) as [|n l]; simpl; [done|]. rewrite drop_0. lia. }
  split_and!; try done.
  - rewrite Hlearned. apply sum_nonneg. by apply Forall_drop.
  - destruct (sizes h buckets) as [|n l]; simpl; [done|].
    apply Forall_cons in Hnn as [Hn _]. lia.
Qed.

(** X22.  [computeProgress] counts no card exactly when [getBucketRange]
    finds no range: on one array, [totalCards = 0] if and only if
    [getBucketRange] returns [undefined]. *)
Theorem no_cards_no_range {History : Type} (history : History) h buckets :
  totalCards (computeProgress buckets history h).1 = 0 ↔
  (getBucketRange buckets h).1 = None.
Proof.
  rewrite computeProgress_run. simpl.
  rewrite sum_zero by apply sizes_nonneg. rewrite sizes_zero.
  destruct (getBucketRange_core h buckets) as (r & -> & Hr). simpl.
  destruct r as [range|].
  - split; [|done]. intros Hno. destruct Hr as (lo & _ & _ & Hlo & _).
    by destruct (Hno lo).
  - done.
Qed.

(** X23.  [learnedCards] is 0 exactly when every card of the array is in
    bucket 0, that is, when no index [i >= 1] is occupied. *)
Theorem learnedCards_zero {History : Type} (history : History) h buckets :
  learnedCards (computeProgress buckets history h).1 = 0 ↔
  ∀ i, (1 ≤ i)%nat → ¬ occupied h buckets i.
Proof.
  rewrite computeProgress_run. simpl.
  assert (foldr Z.add 0 (sizes h buckets) - default 0 (sizes h buckets !! 0%nat) =
          foldr Z.add 0 (sizes h (drop 1 buckets))) as ->.
  { destruct buckets as [|s l]; simpl; [done|]. rewrite drop_0. lia. }
  rewrite sum_zero by apply sizes_nonneg. rewrite sizes_zero.
  unfold occupied. setoid_rewrite lookup_drop. split.
  - intros Hno i Hi. specialize (Hno (i - 1)%nat).
    by replace (1 + (i - 1))%nat with i in Hno by lia.
  - intros Hno i. apply Hno. lia.
Qed.

Lemma learnedCards_zero_witness :
  let h := Heap ∅ {[ 1%positive := {[ 10%positive ]}; 2%positive := ∅ ]} in
  ¬ occupied h [1%positive; 2%positive] 1.
Proof.
  intros h.
  apply (proj1 (learnedCards_zero () h [1%positive; 2%positive])); [reflexivity|lia].
Defined.

(** X24.  [computeProgress] after [toBucketSets] reports the map: entry [i]
    of [bucketDistribution] is the number of cards of bucket [i] of the map,
    and 0 when the map has no bucket [i]. *)
Theorem computeProgress_of_map {History : Type} (history : History) h m (i : nat) :
  let t := toBucketSets m h in
  let p := (computeProgress t.1 history t.2).1 in
  (i < length t.1)%nat →
  bucketDistribution p !! i =
  Some (Z.of_nat (size (default ∅ (set_at h <$>
                                   entries_get (Z.of_nat i) (entries_at h m))))).
Proof.
  intros t p Hi. subst p. rewrite computeProgress_run. simpl.
  subst t. destruct (toBucketSets_run h m) as (arr & h' & Hrun & _ & _ & Hsame & Hslots).
  rewrite Hrun in *. simpl in *. specialize (Hslots i Hi).
  unfold sizes. rewrite list_lookup_fmap.
  destruct (entries_get (Z.of_nat i) (entries_at h m)) as [s|]; simpl.
  - rewrite Hslots. simpl. by rewrite Hsame.
  - destruct Hslots as (s & -> & Hempty). simpl. by rewrite Hempty.
Qed.

Lemma computeProgress_of_map_witness :
  let t := toBucketSets 1%positive scenario in
  bucketDistribution (computeProgress t.1 () t.2).1 !! 1%nat = Some 0.
Proof.
  intros t.
  apply (computeProgress_of_map () scenario 1%positive 1%nat).
  change (1 < 3)%nat. lia.
Defined.

(** ** [update] and the card count *)

Lemma elem_of_slots h (arr : list loc) x :
  x ∈ ⋃ (set_at h <$> arr) ↔ ∃ i s, arr !! i = Some s ∧ x ∈ set_at h s.
Proof.
  rewrite elem_of_union_list. split.
  - intros (X & HX & Hx). apply list_elem_of_fmap in HX as (s & -> & Hs).
    apply list_elem_of_lookup in Hs as [i Hi]. eauto.
  - intros (i & s & Hi & Hx). exists (set_at h s). split; [|done].
    apply list_elem_of_fmap. exists s. split; [done|].
    apply list_elem_of_lookup. eauto.
Qed.

(** When no card is in two slots, the sizes of the slots add up to the
    number of cards of the array. *)
Lemma sum_sizes_disjoint h (arr : list loc) :
  (∀ i j s s' x, arr !! i = Some s → arr !! j = Some s' →
                 x ∈ set_at h s → x ∈ set_at h s' → i = j) →
  foldr Z.add 0 (sizes h arr) = Z.of_nat (size (⋃ (set_at h <$> arr))).
Proof.
  induction arr as [|s arr IH]; intros Hdisj.
  - done.
  - unfold sizes in *. rewrite !fmap_cons, union_list_cons. cbn [foldr].
    rewrite IH.
    + rewrite size_union; [lia|]. intros x Hx Hin.
      apply elem_of_slots in Hin as (j & s' & Hj & Hx').
      by specialize (Hdisj 0%nat (S j) s s' x eq_refl Hj Hx Hx').
    + intros i j s1 s2 x Hi Hj H1 H2.
      specialize (Hdisj (S i) (S j) s1 s2 x Hi Hj H1 H2). lia.
Qed.

(** [totalCards] of the array of a map with every card in at most one
    bucket: the number of cards the map reports in buckets [0, 1, 2, ...]. *)
Lemma totalCards_of_map {History : Type} (history : History) h m (X : gset Flashcard) :
  one_bucket h m →
  (∀ x, x ∈ X ↔ ∃ i : nat, in_bucket h m (Z.of_nat i) x = true) →
  totalCards (computeProgress (toBucketSets m h).1 history (toBucketSets m h).2).1 =
  Z.of_nat (size X).
Proof.
  intros Hone HX. rewrite computeProgress_run. simpl.
  rewrite sum_sizes_disjoint.
  - do 2 f_equal. apply set_eq. intros x.
    rewrite elem_of_slots, HX. setoid_rewrite <-toBucketSets_view. naive_solver.
  - intros i j s s' x Hi Hj Hx Hx'.
    assert (in_bucket h m (Z.of_nat i) x = true) as H1
      by (apply toBucketSets_view; eauto).
    assert (in_bucket h m (Z.of_nat j) x = true) as H2
      by (apply toBucketSets_view; eauto).
    specialize (Hone x _ _ H1 H2). lia.
Qed.

(** X25.  [update] keeps the card count: in a sparse bucket map with the
    card in a bucket [b >= 0], [computeProgress] reports the same
    [totalCards] for the returned map as for the original. *)
Theorem update_keeps_totalCards {History : Type} (history : History) h m c q b :
  bucket_map h m → one_bucket h m → in_bucket h m b c = true → 0 ≤ b →
  let t := toBucketSets m h in
  let u := update m c q h in
  let t' := toBucketSets u.1 u.2 in
  totalCards (computeProgress t'.1 history t'.2).1 =
  totalCards (computeProgress t.1 history t.2).1.
Proof.
  intros Hbm Hone Hb Hb0 t u t'. subst t t'.
  destruct (update_present h m c q b Hbm Hone Hb) as (_ & Hone' & Hc & Hframe).
  fold u in Hone', Hc, Hframe.
  set (X := ⋃ (set_at (toBucketSets m h).2 <$> (toBucketSets m h).1)).
  assert (∀ x, x ∈ X ↔ ∃ i : nat, in_bucket h m (Z.of_nat i) x = true) as HX.
  { intros x. unfold X. rewrite elem_of_slots.
    setoid_rewrite <-toBucketSets_view. naive_solver. }
  rewrite (totalCards_of_map history h m X Hone HX).
  apply totalCards_of_map; [done|]. intros x. rewrite HX.
  destruct (decide (x = c)) as [->|Hne].
  - split; intros _.
    + exists (Z.to_nat (next_bucket q b)). apply Hc. rewrite Z2Nat.id; [done|].
      destruct q; simpl; lia.
    + exists (Z.to_nat b). by rewrite Z2Nat.id.
  - by setoid_rewrite Hframe.
Qed.

Lemma update_keeps_totalCards_witness :
  let t := toBucketSets 1%positive scenario in
  let u := update 1%positive 10%positive Easy scenario in
  let t' := toBucketSets u.1 u.2 in
  totalCards (computeProgress t'.1 () t'.2).1 =
  totalCards (computeProgress t.1 () t.2).1.
Proof.
  apply (update_keeps_totalCards () scenario 1%positive 10%positive Easy 0).
  - exact scenario_bucket_map.
  - exact scenario_one_bucket.
  - reflexivity.
  - lia.
Defined.

(** ** [findPath] *)

Lemma findPath_map_spec {number} sub hypot show (points : list (Drawing.Point number)) :
  ∀ rest i,
    (i + length rest < length points)%nat →
    (∀ j, (j < length rest)%nat → rest !! j = points !! (i + j)%nat) →
    ∃ lines,
      Drawing.findPath_map number sub hypot show points i rest = Some lines ∧
      length lines = length rest ∧
      ∀ j p1 p2, (j < length rest)%nat →
                 points !! (i + j)%nat = Some p1 →
                 points !! (i + j + 1)%nat = Some p2 →
                 lines !! j = Some (Drawing.describe number sub hypot show p1 p2).
Proof.
  induction rest as [|p rest IH]; intros i Hlen Hrest; simpl.
  - exists []. split_and!; try done. intros j p1 p2 Hj. simpl in Hj. lia.
  - simpl in Hlen.
    destruct (lookup_lt_is_Some_2 points (i + 1)%nat ltac:(lia)) as [p2 Hp2].
    rewrite Hp2. simpl.
    assert (points !! i = Some p) as Hp.
    { specialize (Hrest 0%nat ltac:(simpl; lia)). by rewrite Nat.add_0_r in Hrest. }
    destruct (IH (S i)) as (lines & -> & Hl & Hlines); [lia| |].
    { intros j Hj. specialize (Hrest (S j) ltac:(simpl; lia)). simpl in Hrest.
      by rewrite Nat.add_succ_r in Hrest. }
    simpl. eexists. split; [done|]. split; [simpl; lia|].
    intros [|j] p1 p2' Hj H1 H2; simpl.
    + rewrite Nat.add_0_r in H1, H2. by simplify_eq.
    + apply Hlines; [simpl in Hj; lia|by rewrite Nat.add_succ_r in H1|].
      by replace (S i + j + 1)%nat with (i + S j + 1)%nat by lia.
Qed.

(** X26.  [findPath] never reads past the end of [points]: it returns one
    line per pair of consecutive points, that is [length points - 1] lines
    (none for fewer than two points), and line [i] describes the move from
    [points[i]] to [points[i + 1]]. *)
Theorem findPath_consecutive_points {number Turtle} sub hypot show
    (turtle : Turtle) (points : list (Drawing.Point number)) :
  ∃ lines,
    Drawing.findPath number Turtle sub hypot show turtle points = Some lines ∧
    length lines = (length points - 1)%nat ∧
    ∀ i p1 p2, points !! i = Some p1 → points !! (i + 1)%nat = Some p2 →
               lines !! i = Some (Drawing.describe number sub hypot show p1 p2).
Proof.
  unfold Drawing.findPath, Drawing.slice_0_minus1.
  destruct (decide (length points = 0%nat)) as [Hnil|Hne].
  - destruct points; [|done]. exists []. split_and!; try done.
  - destruct (findPath_map_spec sub hypot show points
                (take (length points - 1) points) 0) as (lines & -> & Hl & Hlines).
    + rewrite length_take. lia.
    + intros j Hj. rewrite length_take in Hj. apply lookup_take_lt. lia.
    + exists lines. rewrite length_take in Hl, Hlines. split; [done|].
      split; [lia|]. intros i p1 p2 H1 H2. apply Hlines; [|done..].
      apply lookup_lt_Some in H2. lia.
Qed.

Lemma findPath_consecutive_points_witness :
  let points := [ {| Drawing.x := 0; Drawing.y := 0 |};
                  {| Drawing.x := 3; Drawing.y := 4 |} ] in
  ∃ lines,
    Drawing.findPath Z unit Z.sub (λ a b, Z.sqrt (a * a + b * b)) (λ _, "n") ()
                    points =
    Some lines ∧ length lines = 1%nat.
Proof.
  intros points.
  destruct (findPath_consecutive_points Z.sub (λ a b, Z.sqrt (a * a + b * b))
              (λ _, "n") () points) as (lines & Hrun & Hlen & _).
  exists lines. by split.
Defined.
